(** * auth-proxy: a verification development for [scripts/auth-proxy.py]

    The script is a local forwarding proxy: it accepts a proxy request from a
    client, strips any [Proxy-Authorization] header, injects the one derived
    from the upstream proxy URL, forwards the request to the upstream proxy
    and relays the answer.

    Python values are embedded as follows.
    - [bytes] is a list of [Byte.byte].
    - [str] is a list of code points (numbers in [N]); a Python [str] may hold
      any code point below [0x110000], lone surrogates included.
    - [None]-able values are [option]s.
    - A call that may raise returns a [result]: [Return v] or [Raise e].
    - Sockets are scripted: what [recv] will deliver and whether [sendall] and
      [connect] succeed are part of the [World] a handler runs in, and the
      handler is a function from worlds to worlds.  *)

From Stdlib Require Import List Bool Arith NArith ZArith Lia Zify String Ascii.
From Stdlib.Strings Require Import Byte.
Import ListNotations.

Set Implicit Arguments.
Local Open Scope N_scope.

(** ** Sequences: the operations [str] and [bytes] share *)

Class BEq (A : Type) := { beq : A -> A -> bool }.

#[export] Instance BEq_N : BEq N := {| beq := N.eqb |}.

#[export] Instance BEq_byte : BEq byte := {| beq := Byte.eqb |}.

Module Seq.
Section Ops.
Context {A : Type} `{BEq A}.

(** [s.startswith(p)] *)
Fixpoint startswith (p s : list A) : bool :=
  match p, s with
  | [], _ => true
  | _ :: _, [] => false
  | x :: p', y :: s' => beq x y && startswith p' s'
  end.

(** [s.find(sub)]: the lowest index at which [sub] occurs, [None] for -1. *)
Fixpoint find (sub s : list A) : option nat :=
  if startswith sub s then Some O
  else match s with
       | [] => None
       | _ :: s' => option_map S (find sub s')
       end.

(** [sub in s] *)
Definition contains (sub s : list A) : bool :=
  match find sub s with Some _ => true | None => false end.

(** [c in s] for a single element. *)
Fixpoint mem (c : A) (s : list A) : bool :=
  match s with
  | [] => false
  | x :: s' => beq c x || mem c s'
  end.

Definition push (x : A) (ls : list (list A)) : list (list A) :=
  match ls with
  | l :: r => (x :: l) :: r
  | [] => [[x]]
  end.

(** [s.split(sep)] for a non-empty [sep] (Python raises on an empty one; the
    script only splits on constants).  The scan goes left to right; when
    [sep] matches, the piece read so far ends and the scan jumps over the
    separator: [skip] counts the elements of it still to jump. *)
Fixpoint split_skip (sep : list A) (skip : nat) (s : list A) : list (list A) :=
  match s with
  | [] => [[]]
  | x :: s' =>
    match skip with
    | S k => split_skip sep k s'
    | O => if startswith sep s
           then [] :: split_skip sep (List.length sep - 1) s'
           else push x (split_skip sep O s')
    end
  end.

Definition split (sep s : list A) : list (list A) := split_skip sep O s.

(** [sep.join(ls)] *)
Fixpoint join (sep : list A) (ls : list (list A)) : list A :=
  match ls with
  | [] => []
  | [l] => l
  | l :: ls' => l ++ sep ++ join sep ls'
  end.

(** [s.partition(c)] for a one-element separator: the part before the first
    [c], whether [c] was found, and the part after it. *)
Fixpoint partition (c : A) (s : list A) : list A * bool * list A :=
  match s with
  | [] => ([], false, [])
  | x :: s' =>
    if beq x c then ([], true, s')
    else let '(b, f, a) := partition c s' in (x :: b, f, a)
  end.

(** [s.rpartition(c)]: split at the last [c]; when there is none the whole
    of [s] is the third component. *)
Fixpoint rpartition (c : A) (s : list A) : list A * bool * list A :=
  match s with
  | [] => ([], false, [])
  | x :: s' =>
    let '(b, f, a) := rpartition c s' in
    if f then (x :: b, true, a)
    else if beq x c then ([], true, s')
    else ([], false, x :: a)
  end.

(** [s.replace(c, "")] for a one-element [c]. *)
Definition remove (c : A) (s : list A) : list A :=
  filter (fun x => negb (beq x c)) s.

(** [s.lstrip(chars)] *)
Fixpoint lstrip (chars s : list A) : list A :=
  match s with
  | [] => []
  | x :: s' => if mem x chars then lstrip chars s' else s
  end.
End Ops.
End Seq.

(** ** [bytes] and [str] *)

Definition bytes := list byte.
Definition str := list N.

(** A literal of ASCII characters, as [bytes] and as [str]. *)
Definition b_lit (s : string) : bytes := list_byte_of_string s.
Definition u_lit (s : string) : str := map Byte.to_N (list_byte_of_string s).

Definition CR : N := 13.
Definition LF : N := 10.
Definition CRLF : str := [CR; LF].
Definition bCRLF : bytes := [x0d; x0a].
Definition bCRLFCRLF : bytes := [x0d; x0a; x0d; x0a].

(** A value of type [A], or the exception raised instead. *)
Inductive exn : Type :=
| ValueError          (* urllib.parse: bad IPv6 literal, bad port, ... *)
| UnicodeEncodeError  (* str.encode(): a lone surrogate *)
| UnicodeDecodeError  (* bytes.decode() without an error handler *)
| TypeError           (* socket.connect() with a None host *)
| OSError.            (* any socket failure *)

Inductive result (A : Type) : Type :=
| Return (a : A)
| Raise (e : exn).
Arguments Return {A} a.
Arguments Raise {A} e.

Definition bind {A B} (r : result A) (k : A -> result B) : result B :=
  match r with
  | Return a => k a
  | Raise e => Raise e
  end.

Notation "'do' x <- r ; k" := (bind r (fun x => k))
  (at level 10, x name, r at level 100, k at level 200).

(** ** The UTF-8 codec: [bytes.decode] and [str.encode] *)

Module Utf8.

Definition byte_of_N (n : N) : byte :=
  match Byte.of_N n with
  | Some b => b
  | None => x00
  end.

Definition is_surrogate (c : N) : bool := (0xD800 <=? c) && (c <=? 0xDFFF).

(** What a Python [str] can hold besides lone surrogates. *)
Definition is_scalar (c : N) : bool := (c <? 0x110000) && negb (is_surrogate c).

Definition no_surrogate (s : str) : bool :=
  forallb (fun c => negb (is_surrogate c)) s.

Definition all_scalar (s : str) : bool := forallb is_scalar s.

Definition all_ascii (bs : bytes) : bool :=
  forallb (fun b => Byte.to_N b <? 0x80) bs.

(** [str.encode()] of one code point; [None] for a lone surrogate. *)
Definition encode_char (c : N) : option bytes :=
  if c <? 0x80 then Some [byte_of_N c]
  else if c <? 0x800 then
    Some [byte_of_N (0xC0 + c / 64); byte_of_N (0x80 + c mod 64)]
  else if c <? 0x10000 then
    if is_surrogate c then None
    else Some [byte_of_N (0xE0 + c / 4096);
               byte_of_N (0x80 + (c / 64) mod 64);
               byte_of_N (0x80 + c mod 64)]
  else
    Some [byte_of_N (0xF0 + c / 262144);
          byte_of_N (0x80 + (c / 4096) mod 64);
          byte_of_N (0x80 + (c / 64) mod 64);
          byte_of_N (0x80 + c mod 64)].

(** [s.encode()]: UTF-8, strict. *)
Fixpoint encode (s : str) : result bytes :=
  match s with
  | [] => Return []
  | c :: s' =>
    match encode_char c with
    | None => Raise UnicodeEncodeError
    | Some bs => do rest <- encode s'; Return (bs ++ rest)
    end
  end.

(** The encoding of a string without lone surrogates, as a total function. *)
Definition enc_char (c : N) : bytes :=
  match encode_char c with
  | Some bs => bs
  | None => []
  end.

Definition enc (s : str) : bytes := flat_map enc_char s.

Definition in_range (lo hi : N) (b : byte) : bool :=
  (lo <=? Byte.to_N b) && (Byte.to_N b <=? hi).

Definition is_cont (b : byte) : bool := in_range 0x80 0xBF b.

Definition cont_bits (b : byte) : N := Byte.to_N b - 0x80.

(** The decoder proper, one step: what the bytes at the head of [bs] decode
    to and how many of them that takes.  The item is a code point, or [None]
    for one maximal ill-formed run of bytes: an invalid start byte, a
    sequence cut short by a byte that cannot continue it, or a sequence cut
    short by the end of the input. *)
Definition first_item (bs : bytes) : option N * nat :=
  match bs with
  | [] => (None, 0%nat)
  | b1 :: r1 =>
    let n1 := Byte.to_N b1 in
    if n1 <? 0x80 then (Some n1, 1%nat)
    else if n1 <? 0xC2 then (None, 1%nat)
    else if n1 <? 0xE0 then
      match r1 with
      | [] => (None, 1%nat)
      | b2 :: _ =>
        if is_cont b2
        then (Some ((n1 - 0xC0) * 64 + cont_bits b2), 2%nat)
        else (None, 1%nat)
      end
    else if n1 <? 0xF0 then
      let lo := if n1 =? 0xE0 then 0xA0 else 0x80 in
      let hi := if n1 =? 0xED then 0x9F else 0xBF in
      match r1 with
      | [] => (None, 1%nat)
      | b2 :: r2 =>
        if in_range lo hi b2 then
          match r2 with
          | [] => (None, 2%nat)
          | b3 :: _ =>
            if is_cont b3
            then (Some ((n1 - 0xE0) * 4096 + cont_bits b2 * 64 + cont_bits b3),
                  3%nat)
            else (None, 2%nat)
          end
        else (None, 1%nat)
      end
    else if n1 <? 0xF5 then
      let lo := if n1 =? 0xF0 then 0x90 else 0x80 in
      let hi := if n1 =? 0xF4 then 0x8F else 0xBF in
      match r1 with
      | [] => (None, 1%nat)
      | b2 :: r2 =>
        if in_range lo hi b2 then
          match r2 with
          | [] => (None, 2%nat)
          | b3 :: r3 =>
            if is_cont b3 then
              match r3 with
              | [] => (None, 3%nat)
              | b4 :: _ =>
                if is_cont b4
                then (Some ((n1 - 0xF0) * 262144 + cont_bits b2 * 4096
                            + cont_bits b3 * 64 + cont_bits b4), 4%nat)
                else (None, 3%nat)
              end
            else (None, 2%nat)
          end
        else (None, 1%nat)
      end
    else (None, 1%nat)
  end.

(** The items of [bs], left to right; [skip] counts the bytes that still
    belong to the item before. *)
Fixpoint scan_skip (skip : nat) (bs : bytes) : list (option N) :=
  match bs with
  | [] => []
  | _ :: r =>
    match skip with
    | S k => scan_skip k r
    | O => let '(item, n) := first_item bs in item :: scan_skip (n - 1) r
    end
  end.

Definition scan (bs : bytes) : list (option N) := scan_skip 0 bs.

Definition REPLACEMENT : N := 0xFFFD.

(** [bs.decode('utf-8', errors='replace')] *)
Definition decode_replace (bs : bytes) : str :=
  map (fun o => match o with Some c => c | None => REPLACEMENT end) (scan bs).

(** [bs.decode()]: strict. *)
Definition decode (bs : bytes) : result str :=
  if forallb (fun o => match o with Some _ => true | None => false end) (scan bs)
  then Return (decode_replace bs)
  else Raise UnicodeDecodeError.

End Utf8.

(** ** [base64.b64encode] *)

Module Base64.

Definition alphabet : bytes :=
  b_lit "ABCDEFGHIJKLMNOPQRSTUVWXYZabcdefghijklmnopqrstuvwxyz0123456789+/".

Definition digit (n : N) : byte := nth (N.to_nat n) alphabet x3d.

Definition pad : byte := x3d.

Fixpoint b64encode (bs : bytes) : bytes :=
  match bs with
  | [] => []
  | [a] =>
    let a := Byte.to_N a in
    [digit (a / 4); digit ((a mod 4) * 16); pad; pad]
  | [a; b] =>
    let a := Byte.to_N a in
    let b := Byte.to_N b in
    [digit (a / 4); digit ((a mod 4) * 16 + b / 16); digit ((b mod 16) * 4); pad]
  | a :: b :: c :: r =>
    let a := Byte.to_N a in
    let b := Byte.to_N b in
    let c := Byte.to_N c in
    digit (a / 4) :: digit ((a mod 4) * 16 + b / 16)
    :: digit ((b mod 16) * 4 + c / 64) :: digit (c mod 64) :: b64encode r
  end.

End Base64.

(** ** The parts of the Python runtime left abstract

    The Unicode character database and the [ipaddress] module are not
    modelled; the development is parametric in them. *)

Class PyLib := {
  (** The lower-case mapping of a non-ASCII code point other than U+0130 and
      U+212A, inside a string: the code points before it, the code point, the
      code points after it (the mapping of U+03A3 depends on them). *)
  lower_nonascii : str -> N -> str -> str;
  (** Apart from U+0130 (to "i" and U+0307) and U+212A (to "k"), no
      non-ASCII code point has a lower-case mapping that is empty or starts
      with an ASCII character. *)
  lower_nonascii_head : forall before c after,
    0x80 <= c ->
    exists x w, lower_nonascii before c after = x :: w /\ 0x80 <= x;
  (** [unicodedata.normalize('NFKC', s)] *)
  nfkc : str -> str;
  (** [_check_bracketed_host(hostname)] returns rather than raises: the text
      between the brackets is an IPvFuture literal or an IPv6 address. *)
  bracketed_host_ok : str -> bool
}.

Module Unicode.
Section WithLib.
Context {L : PyLib}.

Definition is_ascii (c : N) : bool := c <? 0x80.

Definition ascii_lower (c : N) : N :=
  if (0x41 <=? c) && (c <=? 0x5A) then c + 32 else c.

Definition is_ascii_alpha (c : N) : bool :=
  ((0x41 <=? c) && (c <=? 0x5A)) || ((0x61 <=? c) && (c <=? 0x7A)).

Definition is_ascii_digit (c : N) : bool := (0x30 <=? c) && (c <=? 0x39).

Fixpoint lower_from (before s : str) : str :=
  match s with
  | [] => []
  | c :: s' =>
    (if is_ascii c then [ascii_lower c]
     else if c =? 0x130 then [0x69; 0x307]
     else if c =? 0x212A then [0x6B]
     else lower_nonascii before c s')
    ++ lower_from (before ++ [c]) s'
  end.

(** [s.lower()] *)
Definition lower (s : str) : str := lower_from [] s.

(** [int(s)] for a string of ASCII digits. *)
Definition int_of_digits (s : str) : N :=
  fold_left (fun acc c => acc * 10 + (c - 0x30)) s 0.

End WithLib.
End Unicode.

(** ** [urllib.parse.urlparse], as far as the script reads its result *)

Module UrlParse.
Section WithLib.
Context {L : PyLib}.

(** [urlsplit] also computes path, query and fragment, and [urlparse] the
    parameters; the script reads none of them and computing them raises
    nothing, so the result keeps the two components it does read from. *)
Record ParseResult := {
  scheme : str;
  netloc : str
}.

Definition ch (s : string) : N :=
  match u_lit s with
  | c :: _ => c
  | [] => 0
  end.

Definition WHATWG_C0_CONTROL_OR_SPACE : str := map N.of_nat (seq 0 33).

Definition scheme_chars : str :=
  u_lit "abcdefghijklmnopqrstuvwxyzABCDEFGHIJKLMNOPQRSTUVWXYZ0123456789+-.".

(** [_splitnetloc(url, 2)], given [url[2:]]: cut at the first of "/?#". *)
Fixpoint splitnetloc (s : str) : str * str :=
  match s with
  | [] => ([], [])
  | c :: s' =>
    if Seq.mem c (u_lit "/?#") then ([], s)
    else let '(d, r) := splitnetloc s' in (c :: d, r)
  end.

Definition checknetloc (netloc : str) : result unit :=
  match netloc with
  | [] => Return tt
  | _ =>
    if forallb Unicode.is_ascii netloc then Return tt
    else
      let n := Seq.remove (ch "?") (Seq.remove (ch "#")
                 (Seq.remove (ch ":") (Seq.remove (ch "@") netloc))) in
      let netloc2 := nfkc n in
      if list_eq_dec N.eq_dec n netloc2 then Return tt
      else if existsb (fun c => Seq.mem c netloc2) (u_lit "/?#@:")
           then Raise ValueError
           else Return tt
  end.

Definition check_bracketed_host (hostname : str) : result unit :=
  if bracketed_host_ok hostname then Return tt else Raise ValueError.

Definition check_bracketed_netloc (netloc : str) : result unit :=
  let '(_, _, hostname_and_port) := Seq.rpartition (ch "@") netloc in
  let '(before_bracket, have_open_br, bracketed) :=
    Seq.partition (ch "[") hostname_and_port in
  if have_open_br then
    match before_bracket with
    | _ :: _ => Raise ValueError
    | [] =>
      let '(hostname, _, port) := Seq.partition (ch "]") bracketed in
      match port with
      | c :: _ =>
        if c =? ch ":" then check_bracketed_host hostname else Raise ValueError
      | [] => check_bracketed_host hostname
      end
    end
  else
    let '(hostname, _, _) := Seq.partition (ch ":") hostname_and_port in
    check_bracketed_host hostname.

Definition urlparse (url : str) : result ParseResult :=
  let url := Seq.lstrip WHATWG_C0_CONTROL_OR_SPACE url in
  let url := Seq.remove 10 (Seq.remove 13 (Seq.remove 9 url)) in
  let '(scheme, url) :=
    match Seq.find [ch ":"] url with
    | Some i =>
      if (0 <? i)%nat
         && match url with
            | c0 :: _ => Unicode.is_ascii c0 && Unicode.is_ascii_alpha c0
            | [] => false
            end
         && forallb (fun c => Seq.mem c scheme_chars) (firstn i url)
      then (Unicode.lower (firstn i url), skipn (i + 1) url)
      else ([], url)
    | None => ([], url)
    end in
  do netloc <-
    (if Seq.startswith (u_lit "//") url then
       let '(netloc, _) := splitnetloc (skipn 2 url) in
       let has_open := Seq.mem (ch "[") netloc in
       let has_close := Seq.mem (ch "]") netloc in
       if (has_open && negb has_close) || (has_close && negb has_open)
       then Raise ValueError
       else if has_open && has_close
            then do _ <- check_bracketed_netloc netloc; Return netloc
            else Return netloc
     else Return []);
  do _ <- checknetloc netloc;
  Return {| scheme := scheme; netloc := netloc |}.

Definition userinfo (r : ParseResult) : option str * option str :=
  let '(userinfo, have_info, _) := Seq.rpartition (ch "@") (netloc r) in
  if have_info then
    let '(username, have_password, password) := Seq.partition (ch ":") userinfo in
    (Some username, if have_password then Some password else None)
  else (None, None).

Definition hostinfo (r : ParseResult) : str * option str :=
  let '(_, _, hostinfo) := Seq.rpartition (ch "@") (netloc r) in
  let '(_, have_open_br, bracketed) := Seq.partition (ch "[") hostinfo in
  let '(hostname, port) :=
    if have_open_br then
      let '(hostname, _, port) := Seq.partition (ch "]") bracketed in
      let '(_, _, port) := Seq.partition (ch ":") port in
      (hostname, port)
    else
      let '(hostname, _, port) := Seq.partition (ch ":") hostinfo in
      (hostname, port) in
  (hostname, match port with [] => None | _ => Some port end).

Definition username (r : ParseResult) : option str := fst (userinfo r).

Definition password (r : ParseResult) : option str := snd (userinfo r).

Definition hostname (r : ParseResult) : option str :=
  match fst (hostinfo r) with
  | [] => None
  | hostname =>
    let '(hostname, percent, zone) := Seq.partition (ch "%") hostname in
    Some (Unicode.lower hostname ++ (if percent then [ch "%"] else []) ++ zone)
  end.

(** [int(port)] raises ValueError for a string of more than 4300 digits,
    leading zeros counted: the limit CPython sets, unless it is configured
    otherwise, on the conversion of a decimal string. *)
Definition INT_MAX_STR_DIGITS : N := 4300.

Definition port (r : ParseResult) : result (option N) :=
  match snd (hostinfo r) with
  | None => Return None
  | Some port =>
    match port with
    | [] => Raise ValueError
    | _ =>
      if forallb (fun c => Unicode.is_ascii_digit c && Unicode.is_ascii c) port then
        if INT_MAX_STR_DIGITS <? N.of_nat (List.length port) then Raise ValueError
        else
          let port := Unicode.int_of_digits port in
          if port <=? 65535 then Return (Some port) else Raise ValueError
      else Raise ValueError
    end
  end.

End WithLib.
End UrlParse.

(** ** The script: configuration *)

Record UpstreamTarget := {
  host : option str;
  port : N;
  username : option str;
  password : option str
}.

(** [not s] for a string that may be [None]. *)
Definition falsy (s : option str) : bool :=
  match s with
  | None | Some [] => true
  | Some (_ :: _) => false
  end.

Section Config.
Context {L : PyLib}.

Definition parse_proxy_url (url : str) : result (option UpstreamTarget) :=
  match url with
  | [] => Return None
  | _ =>
    do parsed <- UrlParse.urlparse url;
    do port <- UrlParse.port parsed;
    Return (Some {|
      host := UrlParse.hostname parsed;
      port := match port with
              | None => 3128
              | Some p => if p =? 0 then 3128 else p
              end;
      username := UrlParse.username parsed;
      password := UrlParse.password parsed
    |})
  end.

End Config.

(** [f"{s}"] *)
Definition format_str (s : option str) : str :=
  match s with
  | Some s => s
  | None => u_lit "None"
  end.

Definition create_auth_header (username password : option str)
  : result (option str) :=
  if falsy username || falsy password then Return None
  else
    let credentials := format_str username ++ u_lit ":" ++ format_str password in
    do raw <- Utf8.encode credentials;
    do encoded <- Utf8.decode (Base64.b64encode raw);
    Return (Some (u_lit "Basic " ++ encoded)).

(** ** Sockets

    A socket is scripted: [rx] lists what the successive [recv] calls will
    return (a chunk of at most 4096 bytes, or a failure) and is followed by
    the end of the stream; [tx_ok] tells of the successive [sendall] calls
    which ones succeed, those after the last one do.  [sent] collects what
    was sent and [close_calls] counts the calls of [close].

    A script is the stream of a peer that ends or fails after finitely many
    chunks.  A peer that stays silent without closing, on which [recv]
    waits for ever, has no script: what is said of the end of a run is said
    of peers whose streams end or fail. *)

Inductive recv_result : Type :=
| Data (chunk : bytes)
| RecvFails.

Record Socket := {
  rx : list recv_result;
  tx_ok : list bool;
  sent : bytes;
  close_calls : nat
}.

Definition set_rx (s : Socket) (r : list recv_result) : Socket :=
  {| rx := r; tx_ok := tx_ok s; sent := sent s; close_calls := close_calls s |}.

(** [s.recv(4096)]; the empty chunk is the end of the stream.  A closed
    socket has no file descriptor left to read from: the call raises.  (A
    call that was already waiting when another thread closed the socket
    goes on waiting for its peer; it is not described apart.) *)
Definition recv (s : Socket) : result bytes * Socket :=
  if (0 <? close_calls s)%nat then (Raise OSError, s)
  else match rx s with
       | [] => (Return [], s)
       | Data chunk :: r => (Return chunk, set_rx s r)
       | RecvFails :: r => (Raise OSError, set_rx s r)
       end.

(** [s.sendall(data)] *)
Definition sendall (s : Socket) (data : bytes) : result unit * Socket :=
  if (0 <? close_calls s)%nat then (Raise OSError, s)
  else match tx_ok s with
       | false :: t =>
         (Raise OSError,
          {| rx := rx s; tx_ok := t; sent := sent s; close_calls := close_calls s |})
       | true :: t =>
         (Return tt,
          {| rx := rx s; tx_ok := t; sent := sent s ++ data;
             close_calls := close_calls s |})
       | [] =>
         (Return tt,
          {| rx := rx s; tx_ok := []; sent := sent s ++ data;
             close_calls := close_calls s |})
       end.

(** [s.close()] *)
Definition close (s : Socket) : Socket :=
  {| rx := rx s; tx_ok := tx_ok s; sent := sent s;
     close_calls := S (close_calls s) |}.

(** ** The world a handler runs in *)

Record World := {
  client : Socket;
  (** the socket line 81 creates; [upstream_created] tells whether it has *)
  upstream : Socket;
  upstream_created : bool;
  (** whether [upstream.connect] will succeed *)
  connect_ok : bool;
  (** which relay thread runs next: [true] for client->upstream *)
  schedule : list bool;
  (** the exceptions line 152 printed *)
  reported : list exn
}.

Definition set_client (w : World) (s : Socket) : World :=
  {| client := s; upstream := upstream w; upstream_created := upstream_created w;
     connect_ok := connect_ok w; schedule := schedule w; reported := reported w |}.

Definition set_upstream (w : World) (s : Socket) : World :=
  {| client := client w; upstream := s; upstream_created := upstream_created w;
     connect_ok := connect_ok w; schedule := schedule w; reported := reported w |}.

(** ** [forward_data] and the two relay threads *)

Inductive direction : Type :=
| ClientToUpstream
| UpstreamToClient.

Definition source (d : direction) (w : World) : Socket :=
  match d with
  | ClientToUpstream => client w
  | UpstreamToClient => upstream w
  end.

Definition dest (d : direction) (w : World) : Socket :=
  match d with
  | ClientToUpstream => upstream w
  | UpstreamToClient => client w
  end.

Definition set_source (d : direction) (w : World) (s : Socket) : World :=
  match d with
  | ClientToUpstream => set_client w s
  | UpstreamToClient => set_upstream w s
  end.

Definition set_dest (d : direction) (w : World) (s : Socket) : World :=
  match d with
  | ClientToUpstream => set_upstream w s
  | UpstreamToClient => set_client w s
  end.

(** Where a thread running [forward_data] stands. *)
Inductive pc : Type :=
| AtRecv                  (* line 47 *)
| AtSend (data : bytes)   (* line 50 *)
| AtCloseSource           (* line 55 *)
| AtCloseDest             (* line 56 *)
| Finished.

(** One socket call of [forward_data(source, dest)]. *)
Definition forward_step (d : direction) (p : pc) (w : World) : pc * World :=
  match p with
  | AtRecv =>
    match recv (source d w) with
    | (Return [], s) => (AtCloseSource, set_source d w s)
    | (Return data, s) => (AtSend data, set_source d w s)
    | (Raise _, s) => (AtCloseSource, set_source d w s)
    end
  | AtSend data =>
    match sendall (dest d w) data with
    | (Return _, s) => (AtRecv, set_dest d w s)
    | (Raise _, s) => (AtCloseSource, set_dest d w s)
    end
  | AtCloseSource => (AtCloseDest, set_source d w (close (source d w)))
  | AtCloseDest => (Finished, set_dest d w (close (dest d w)))
  | Finished => (Finished, w)
  end.

Definition is_finished (p : pc) : bool :=
  match p with
  | Finished => true
  | _ => false
  end.

(** An upper bound of the socket calls a thread still makes. *)
Definition calls_left (d : direction) (p : pc) (w : World) : nat :=
  match p with
  | AtRecv => 2 * List.length (rx (source d w)) + 3
  | AtSend _ => 2 * List.length (rx (source d w)) + 4
  | AtCloseSource => 2
  | AtCloseDest => 1
  | Finished => 0
  end.

Definition pop_schedule (w : World) : bool * World :=
  match schedule w with
  | [] => (true, w)
  | b :: r =>
    (b, {| client := client w; upstream := upstream w;
           upstream_created := upstream_created w; connect_ok := connect_ok w;
           schedule := r; reported := reported w |})
  end.

(** The two threads of lines 117-122, interleaved as the schedule says; a
    thread that has finished leaves the turn to the other one.  The result
    holds where the threads stand after [fuel] socket calls. *)
Fixpoint run_threads (fuel : nat) (t1 t2 : pc) (w : World) : pc * pc * World :=
  match fuel with
  | O => (t1, t2, w)
  | S fuel' =>
    if is_finished t1 && is_finished t2 then (t1, t2, w)
    else
      let '(turn, w) := pop_schedule w in
      if (turn && negb (is_finished t1)) || is_finished t2 then
        let '(t1', w') := forward_step ClientToUpstream t1 w in
        run_threads fuel' t1' t2 w'
      else
        let '(t2', w') := forward_step UpstreamToClient t2 w in
        run_threads fuel' t1 t2' w'
  end.

(** [t1.start(); t2.start(); t1.join(); t2.join()] *)
Definition relay (w : World) : World :=
  let fuel := (calls_left ClientToUpstream AtRecv w
               + calls_left UpstreamToClient AtRecv w)%nat in
  let '(_, _, w') := run_threads fuel AtRecv AtRecv w in
  w'.

(** ** A state and exception monad over worlds *)

Definition M (A : Type) : Type := World -> result A * World.

Definition ret {A} (a : A) : M A := fun w => (Return a, w).

Definition lift {A} (r : result A) : M A := fun w => (r, w).

Definition mbind {A B} (m : M A) (k : A -> M B) : M B :=
  fun w =>
    match m w with
    | (Return a, w') => k a w'
    | (Raise e, w') => (Raise e, w')
    end.

Notation "x <- m ;; k" := (mbind m (fun x => k))
  (at level 61, m at next level, right associativity).
Notation "m ;; k" := (mbind m (fun _ => k))
  (at level 61, right associativity).

Definition client_sendall (data : bytes) : M unit :=
  fun w => let '(r, s) := sendall (client w) data in (r, set_client w s).

Definition upstream_sendall (data : bytes) : M unit :=
  fun w => let '(r, s) := sendall (upstream w) data in (r, set_upstream w s).

Definition client_close : M unit :=
  fun w => (Return tt, set_client w (close (client w))).

Definition upstream_close : M unit :=
  fun w => (Return tt, set_upstream w (close (upstream w))).

(** Line 81: [socket.socket(...)]. *)
Definition upstream_socket : M unit :=
  fun w =>
    (Return tt,
     {| client := client w; upstream := upstream w; upstream_created := true;
        connect_ok := connect_ok w; schedule := schedule w;
        reported := reported w |}).

(** Line 82: [upstream.connect((host, port))]; a host that is [None] is not
    an address. *)
Definition upstream_connect (host : option str) (port : N) : M unit :=
  fun w =>
    match host with
    | None => (Raise TypeError, w)
    | Some _ => if connect_ok w then (Return tt, w) else (Raise OSError, w)
    end.

(** Line 152. *)
Definition report (e : exn) (w : World) : World :=
  {| client := client w; upstream := upstream w;
     upstream_created := upstream_created w; connect_ok := connect_ok w;
     schedule := schedule w; reported := reported w ++ [e] |}.

(** ** [handle_client] *)

(** How a call of [handle_client] ends. *)
Inductive Outcome : Type :=
| ClientGone       (* line 69: the client closed before the end of the head *)
| Tunnelled        (* line 122: the relay threads ran and were joined *)
| TunnelRefused    (* line 125 *)
| PlainDone        (* line 149 *)
| Errored (e : exn).  (* line 156 *)

(** Inserting into a list: [l.insert(i, x)] for [i >= 0]. *)
Definition list_insert {A} (i : nat) (x : A) (l : list A) : list A :=
  firstn i l ++ x :: skipn i l.

Section Handler.
Context {L : PyLib}.

(** Lines 93 and 131. *)
Definition is_proxy_auth (line : str) : bool :=
  Seq.startswith (u_lit "proxy-authorization:") (Unicode.lower line).

(** Lines 89-98 and, word for word, lines 128-136. *)
Definition new_headers (lines : list str) (auth_header : option str) : list str :=
  let first_line := hd [] lines in
  let new_headers :=
    first_line :: filter (fun line => negb (is_proxy_auth line)) (tl lines) in
  if falsy auth_header then new_headers
  else list_insert 1 (u_lit "Proxy-Authorization: " ++ format_str auth_header)
                   new_headers.

(** Lines 100-101 and 138-139: what is passed to [upstream.sendall]. *)
Definition new_request (lines : list str) (auth_header : option str)
    (body : bytes) : result bytes :=
  do head <- Utf8.encode (Seq.join CRLF (new_headers lines auth_header)
                          ++ CRLF ++ CRLF);
  Return (head ++ body).

(** Lines 65-70, on the script of the client socket: the request, or [None]
    when the stream ended first. *)
Fixpoint read_request (rx : list recv_result) (request : bytes)
  : result (option bytes) * list recv_result :=
  if Seq.contains bCRLFCRLF request then (Return (Some request), rx)
  else match rx with
       | [] => (Return None, [])
       | Data [] :: r => (Return None, r)
       | Data chunk :: r => read_request r (request ++ chunk)
       | RecvFails :: r => (Raise OSError, r)
       end.

(** Lines 105-109, on the script of the upstream socket. *)
Fixpoint read_response (rx : list recv_result) (response : bytes)
  : result bytes * list recv_result :=
  if Seq.contains bCRLFCRLF response then (Return response, rx)
  else match rx with
       | [] => (Return response, [])
       | Data [] :: r => (Return response, r)
       | Data chunk :: r => read_response r (response ++ chunk)
       | RecvFails :: r => (Raise OSError, r)
       end.

(** Lines 142-146, on the script of the upstream socket and the client. *)
Fixpoint stream_response (rx : list recv_result) (client : Socket)
  : result unit * list recv_result * Socket :=
  match rx with
  | [] => (Return tt, [], client)
  | Data [] :: r => (Return tt, r, client)
  | Data chunk :: r =>
    match sendall client chunk with
    | (Return _, client') => stream_response r client'
    | (Raise e, client') => (Raise e, r, client')
    end
  | RecvFails :: r => (Raise OSError, r, client)
  end.

Definition client_read_request : M (option bytes) :=
  fun w =>
    let '(r, rx') := read_request (rx (client w)) [] in
    (r, set_client w (set_rx (client w) rx')).

Definition upstream_read_response : M bytes :=
  fun w =>
    let '(r, rx') := read_response (rx (upstream w)) [] in
    (r, set_upstream w (set_rx (upstream w) rx')).

Definition upstream_stream_response : M unit :=
  fun w =>
    let '(r, rx', client') := stream_response (rx (upstream w)) (client w) in
    (r, set_client (set_upstream w (set_rx (upstream w) rx')) client').

(** Lines 73-77: the lines of the head and the bytes after it.  The loop
    before was left with the terminator in [request], so [find] finds it. *)
Definition split_request (request : bytes) : list str * bytes :=
  let header_end :=
    match Seq.find bCRLFCRLF request with Some i => i | None => O end in
  let headers := Utf8.decode_replace (firstn header_end request) in
  let body := skipn (header_end + 4) request in
  (Seq.split CRLF headers, body).

(** Line 115. *)
Definition connection_established (response : bytes) : bool :=
  Seq.contains (b_lit "200") (hd [] (Seq.split bCRLF response)).

(** Lines 63-149: the body of the [try]. *)
Definition handle_client_try (upstream_proxy : UpstreamTarget) : M Outcome :=
  request <- client_read_request ;;
  match request with
  | None => client_close ;; ret ClientGone
  | Some request =>
    let '(lines, body) := split_request request in
    let first_line := hd [] lines in
    upstream_socket ;;
    upstream_connect (host upstream_proxy) (port upstream_proxy) ;;
    auth_header <- lift (create_auth_header (username upstream_proxy)
                                            (password upstream_proxy)) ;;
    if Seq.startswith (u_lit "CONNECT") first_line then
      new_request <- lift (new_request lines auth_header body) ;;
      upstream_sendall new_request ;;
      response <- upstream_read_response ;;
      client_sendall response ;;
      if connection_established response then
        (fun w => (Return Tunnelled, relay w))
      else
        client_close ;; upstream_close ;; ret TunnelRefused
    else
      new_request <- lift (new_request lines auth_header body) ;;
      upstream_sendall new_request ;;
      upstream_stream_response ;;
      client_close ;; upstream_close ;; ret PlainDone
  end.

Definition handle_client (upstream_proxy : UpstreamTarget) (w : World)
  : Outcome * World :=
  match handle_client_try upstream_proxy w with
  | (Return o, w') => (o, w')
  | (Raise e, w') => (Errored e, set_client (report e w') (close (client w')))
  end.

(** ** [main], from the reading of the environment to the listening socket *)

Inductive Startup : Type :=
| ExitNoProxy                (* line 165 *)
| ExitCouldNotParse          (* line 170 *)
| Traceback (e : exn)        (* an exception nothing catches *)
| Serving (upstream_proxy : UpstreamTarget).

Definition main_startup (HTTPS_PROXY HTTP_PROXY : option str) : Startup :=
  let proxy_url := if falsy HTTPS_PROXY then HTTP_PROXY else HTTPS_PROXY in
  if falsy proxy_url then ExitNoProxy
  else
    match parse_proxy_url (format_str proxy_url) with
    | Raise e => Traceback e
    | Return None => ExitCouldNotParse
    | Return (Some upstream_proxy) => Serving upstream_proxy
    end.

(** ** [main], from its first line *)

Definition LOCAL_PORT : Z := 3128%Z.

(** Line 159: the port to listen on, [int(sys.argv[1])] when the command
    line has an argument after the name of the script.  [py_int] is the
    conversion of the runtime; the lines up to 170 use nothing of its
    result but that there is one. *)
Definition listen_port (py_int : str -> result Z) (argv : list str)
  : result Z :=
  match argv with
  | _ :: argument :: _ => py_int argument
  | _ => Return LOCAL_PORT
  end.

(** Lines 159-170. *)
Definition main (py_int : str -> result Z) (argv : list str)
    (HTTPS_PROXY HTTP_PROXY : option str) : Startup :=
  match listen_port py_int argv with
  | Raise e => Traceback e
  | Return _ => main_startup HTTPS_PROXY HTTP_PROXY
  end.

End Handler.

(** The world at the call of [handle_client]: an accepted client socket and
    nothing else yet. *)
Record Script := {
  client_rx : list recv_result;
  client_tx_ok : list bool;
  upstream_rx : list recv_result;
  upstream_tx_ok : list bool;
  upstream_connect_ok : bool;
  thread_schedule : list bool
}.

Definition start (e : Script) : World :=
  {| client := {| rx := client_rx e; tx_ok := client_tx_ok e; sent := [];
                  close_calls := 0 |};
     upstream := {| rx := upstream_rx e; tx_ok := upstream_tx_ok e; sent := [];
                    close_calls := 0 |};
     upstream_created := false;
     connect_ok := upstream_connect_ok e;
     schedule := thread_schedule e;
     reported := [] |}.

(** ** The notions the statements are written in *)

(** A header line that names Proxy-Authorization, whatever the case of its
    ASCII letters; on the decoded text and on the bytes of the wire. *)
Definition names_proxy_authorization (line : str) : bool :=
  Seq.startswith (u_lit "proxy-authorization:") (map Unicode.ascii_lower line).

Definition names_proxy_authorization_b (line : bytes) : bool :=
  names_proxy_authorization (map Byte.to_N line).

(** The header lines of a list of lines: all but the request line. *)
Definition header_lines (lines : list str) : list str := tl lines.


(** The same without a credential. *)
Definition strip_by_spec (request : bytes) : bytes :=
  let header_end :=
    match Seq.find bCRLFCRLF request with Some i => i | None => O end in
  let lines := Seq.split bCRLF (firstn header_end request) in
  let body := skipn (header_end + 4) request in
  Seq.join bCRLF
    (hd [] lines
     :: filter (fun line => negb (names_proxy_authorization_b line)) (tl lines))
  ++ bCRLFCRLF ++ body.

(** The status code of a response by the words of the specification: the
    second of the fields of the status line that single spaces separate. *)
Definition status_code (response : bytes) : bytes :=
  nth 1 (Seq.split [x20] (hd [] (Seq.split bCRLF response))) [].

(** The bytes a scripted stream delivers before it ends. *)
Fixpoint delivered (rx : list recv_result) : bytes :=
  match rx with
  | Data (b :: chunk) :: r => (b :: chunk) ++ delivered r
  | _ => []
  end.

(** The stream ends with its end, not with a failure. *)
Fixpoint ends_cleanly (rx : list recv_result) : bool :=
  match rx with
  | [] => true
  | Data [] :: _ => true
  | Data _ :: r => ends_cleanly r
  | RecvFails :: _ => false
  end.

(** No [sendall] on the socket fails. *)
Definition sends_succeed (tx : list bool) : bool := forallb (fun b => b) tx.

(** The characters RFC 3986 allows in the parts of an authority, percent
    escapes apart: unreserved characters and sub-delimiters. *)
Definition is_unreserved (c : N) : bool :=
  Unicode.is_ascii_alpha c || Unicode.is_ascii_digit c
  || Seq.mem c (u_lit "-._~").

Definition is_sub_delim (c : N) : bool := Seq.mem c (u_lit "!$&'()*+,;=").

Definition is_regname_char (c : N) : bool := is_unreserved c || is_sub_delim c.

Definition is_user_char (c : N) : bool :=
  is_regname_char c || (c =? UrlParse.ch "%").

Definition is_password_char (c : N) : bool :=
  is_user_char c || (c =? UrlParse.ch ":").

Definition is_scheme (s : str) : bool :=
  match s with
  | [] => false
  | c :: _ =>
    Unicode.is_ascii_alpha c
    && forallb (fun c => Seq.mem c UrlParse.scheme_chars) s
  end.

(** [scheme://[user[:pass]@]host[:port]] *)
Definition proxy_url (scheme : str) (credentials : option (str * option str))
    (host : str) (port : option str) : str :=
  scheme ++ u_lit "://"
  ++ match credentials with
     | None => []
     | Some (user, None) => user ++ u_lit "@"
     | Some (user, Some pass) => user ++ u_lit ":" ++ pass ++ u_lit "@"
     end
  ++ host
  ++ match port with
     | None => []
     | Some digits => u_lit ":" ++ digits
     end.

(** A runtime to run examples in: its Unicode database knows no case pairs
    outside ASCII, its NFKC changes nothing and it takes no bracketed host
    for an address. *)
Definition plain_lower_nonascii (before : str) (c : N) (after : str) : str := [c].

#[export] Instance plain_pylib : PyLib := {|
  lower_nonascii := plain_lower_nonascii;
  lower_nonascii_head := fun before c after Hc =>
    ex_intro _ c (ex_intro _ [] (conj eq_refl Hc));
  nfkc := fun s => s;
  bracketed_host_ok := fun _ => false
|}.

(** The inputs of the examples. *)
Definition example_target : UpstreamTarget :=
  {| host := Some (u_lit "proxy.example.com"); port := 3128;
     username := Some (u_lit "user"); password := Some (u_lit "pass") |}.

Definition example_connect : bytes :=
  b_lit "CONNECT example.com:443 HTTP/1.1" ++ bCRLF
  ++ b_lit "Host: example.com:443" ++ bCRLF
  ++ b_lit "proxy-AUTHORIZATION: Basic b2xkOm9sZA==" ++ bCRLFCRLF.

Definition example_get : bytes :=
  b_lit "GET http://example.com/ HTTP/1.1" ++ bCRLF
  ++ b_lit "Host: example.com" ++ bCRLF
  ++ b_lit "Proxy-Authorization: Basic b2xkOm9sZA==" ++ bCRLF
  ++ b_lit "Accept: */*" ++ bCRLFCRLF.

Definition example_script (request : bytes) (from_upstream : list recv_result)
  : Script :=
  {| client_rx := [Data request]; client_tx_ok := [];
     upstream_rx := from_upstream; upstream_tx_ok := [];
     upstream_connect_ok := true; thread_schedule := [true; false] |}.

(** The calls of [close] a thread still makes on its source and on its
    destination. *)
Definition source_closes_due (p : pc) : nat :=
  match p with
  | AtRecv | AtSend _ | AtCloseSource => 1
  | AtCloseDest | Finished => 0
  end.

Definition dest_closes_due (p : pc) : nat :=
  match p with
  | Finished => 0
  | _ => 1
  end.

Definition opposite (d : direction) : direction :=
  match d with
  | ClientToUpstream => UpstreamToClient
  | UpstreamToClient => ClientToUpstream
  end.

(** What the relay keeps, seen from the thread [own] of direction [d] and
    the [other] thread: every call of [close] that is due is made, and what
    was sent stays sent. *)
Record relay_inv (d : direction) (a b : nat) (sa sb : bytes) (own other : pc)
    (w : World) : Prop := {
  inv_source_closes :
    (close_calls (source d w)
     + (source_closes_due own + dest_closes_due other))%nat = a;
  inv_dest_closes :
    (close_calls (dest d w)
     + (dest_closes_due own + source_closes_due other))%nat = b;
  inv_source_sent : exists tail, sent (source d w) = sa ++ tail;
  inv_dest_sent : exists tail, sent (dest d w) = sb ++ tail;
  inv_rest : reported w = [] /\ upstream_created w = true
}.

(** The world after the request went upstream: what both scripts still hold
    and what both sockets were sent. *)
Definition forwarded (e : Script) (crx urx : list recv_result)
    (to_client to_upstream : bytes) (client_sends : nat) : World :=
  {| client := {| rx := crx; tx_ok := skipn client_sends (client_tx_ok e);
                  sent := to_client; close_calls := 0 |};
     upstream := {| rx := urx; tx_ok := tl (upstream_tx_ok e);
                    sent := to_upstream; close_calls := 0 |};
     upstream_created := true;
     connect_ok := upstream_connect_ok e;
     schedule := thread_schedule e;
     reported := [] |}.

Definition closed_both (w : World) : World :=
  set_upstream (set_client w (close (client w))) (close (upstream w)).

(** What [handle_client] passes to [upstream.sendall], lines 101 and 139,
    for a complete request. *)
Definition forwarded_request {L : PyLib} (upstream_proxy : UpstreamTarget)
    (request : bytes) : result bytes :=
  let '(lines, body) := split_request request in
  do auth_header <- create_auth_header (username upstream_proxy)
                                       (password upstream_proxy);
  new_request lines auth_header body.

(** A pattern that [s.lower().startswith(pattern)] matches character by
    character: ASCII, without "k" (to which U+212A maps) and with a
    character after every "i" (U+0130 maps to "i" and U+0307). *)
Fixpoint charwise (pattern : str) : bool :=
  match pattern with
  | [] => true
  | x :: p =>
    (x <? 0x80) && negb (x =? 0x6B)
    && (negb (x =? 0x69) || match p with [] => false | _ :: _ => true end)
    && charwise p
  end.

(** Well-formed parts of a proxy URL. *)
Definition credentials_ok (credentials : option (str * option str)) : bool :=
  match credentials with
  | None => true
  | Some (user, pass) =>
    forallb is_user_char user
    && match pass with
       | None => true
       | Some p => forallb is_password_char p
       end
  end.

Definition host_ok (host : str) : bool :=
  match host with
  | [] => false
  | _ :: _ => forallb is_regname_char host
  end.

(** The host of a proxy URL: a registered name, or an IP literal between
    brackets. *)
Inductive host_form : Type :=
| RegName (name : str)
| IpLiteral (address : str).

Definition host_text (h : host_form) : str :=
  match h with
  | RegName name => name
  | IpLiteral address => u_lit "[" ++ address ++ u_lit "]"
  end.

Definition host_name (h : host_form) : str :=
  match h with
  | RegName name => name
  | IpLiteral address => address
  end.

(** The characters of an IPv6 address: hexadecimal digits, ":" and ".". *)
Definition is_ip_literal_char (c : N) : bool :=
  Unicode.is_ascii_digit c || Seq.mem c (u_lit "abcdefABCDEF:.").

(** A registered name, or an address that the runtime takes for one. *)
Definition host_form_ok {L : PyLib} (h : host_form) : bool :=
  match h with
  | RegName name => host_ok name
  | IpLiteral address =>
    match address with [] => false | _ :: _ => true end
    && forallb is_ip_literal_char address
    && bracketed_host_ok address
  end.

(** A port that the resolver takes: digits, no more of them than [int]
    converts, of a value that is a port number. *)
Definition port_ok (port : option str) : bool :=
  match port with
  | None => true
  | Some digits =>
    forallb Unicode.is_ascii_digit digits
    && (N.of_nat (List.length digits) <=? UrlParse.INT_MAX_STR_DIGITS)
    && (Unicode.int_of_digits digits <=? 65535)
  end.

(** What the resolver returns for such a URL. *)
Definition resolved (credentials : option (str * option str))
    (h : host_form) (port : option str) : UpstreamTarget :=
  {| host := Some (map Unicode.ascii_lower (host_name h));
     port := match port with
             | None => 3128
             | Some digits =>
               if Unicode.int_of_digits digits =? 0 then 3128
               else Unicode.int_of_digits digits
             end;
     username := option_map fst credentials;
     password := match credentials with
                 | Some (_, pass) => pass
                 | None => None
                 end |}.

(** A character that cuts nothing: printable ASCII and none of "@/?#[]". *)
Definition inert (c : N) : Prop :=
  0x20 < c < 0x80
  /\ c <> 64 /\ c <> 47 /\ c <> 63 /\ c <> 35 /\ c <> 91 /\ c <> 93.

(** A character of an authority: printable ASCII and none of "/?#[]". *)
Definition authority_char (c : N) : Prop :=
  0x20 < c < 0x80 /\ c <> 47 /\ c <> 63 /\ c <> 35 /\ c <> 91 /\ c <> 93.

(** A character of a netloc: printable ASCII and none of "/?#". *)
Definition netloc_char (c : N) : Prop :=
  0x20 < c < 0x80 /\ c <> 47 /\ c <> 63 /\ c <> 35.

(** A runtime like [plain_pylib] that takes the loopback address for an
    address. *)
Definition loopback_pylib : PyLib := {|
  lower_nonascii := plain_lower_nonascii;
  lower_nonascii_head := fun before c after Hc =>
    ex_intro _ c (ex_intro _ [] (conj eq_refl Hc));
  nfkc := fun s => s;
  bracketed_host_ok := fun h =>
    if list_eq_dec N.eq_dec h (u_lit "::1") then true else false
|}.

(** ** [forward_data] by itself, and the order of the bytes *)

(** [forward_data(source, dest)] run by itself, lines 43-58: the calls the
    thread makes, one after the other, to its end. *)
Fixpoint run_forward (fuel : nat) (d : direction) (p : pc) (w : World)
  : pc * World :=
  match fuel with
  | O => (p, w)
  | S fuel' =>
    let '(p', w') := forward_step d p w in
    run_forward fuel' d p' w'
  end.

Definition forward_data (d : direction) (w : World) : pc * World :=
  run_forward (calls_left d AtRecv w) d AtRecv w.

(** What a thread may still send: what it holds and what its source will
    deliver, as long as it reads. *)
Definition still_to_send (d : direction) (p : pc) (w : World) : bytes :=
  match p with
  | AtRecv => delivered (rx (source d w))
  | AtSend data => data ++ delivered (rx (source d w))
  | _ => []
  end.

(** The bytes [total] pass through the thread in their order: what its
    destination was sent and what it may still send begin [total]. *)
Definition in_order (d : direction) (total : bytes) (p : pc) (w : World) : Prop :=
  exists lost, total = sent (dest d w) ++ still_to_send d p w ++ lost.

(** The end of a scripted stream is the end of its script: no chunk is
    empty. *)
Definition well_scripted (rx0 : list recv_result) : bool :=
  forallb (fun r => match r with Data [] => false | _ => true end) rx0.







(** * Properties *)

(** ** Sequences *)

Class BEqLaws (A : Type) {E : BEq A} := {
  beq_eq : forall x y : A, beq x y = true <-> x = y
}.
Arguments BEqLaws A {E}.

#[export] Instance BEqLaws_N : BEqLaws N.
Proof. constructor. exact N.eqb_eq. Qed.

#[export] Instance BEqLaws_byte : BEqLaws byte.
Proof.
  constructor. intros x y. split.
  - apply Byte.byte_dec_bl.
  - apply Byte.byte_dec_lb.
Qed.

Module SeqFacts.
Import Seq.
Section Facts.
Context {A : Type} {EqA : BEq A} {EqLawsA : BEqLaws A}.

Lemma beq_refl (x : A) : beq x x = true.
Proof. now apply beq_eq. Qed.

Lemma beq_neq (x y : A) : x <> y -> beq x y = false.
Proof.
  intros Hne. destruct (beq x y) eqn:E; [|reflexivity].
  apply beq_eq in E. contradiction.
Qed.

Lemma startswith_app (p s : list A) : startswith p (p ++ s) = true.
Proof.
  induction p as [|x p IH]; simpl; [reflexivity|].
  now rewrite beq_refl, IH.
Qed.

Lemma startswith_inv (p s : list A) :
  startswith p s = true -> exists t, s = p ++ t.
Proof.
  revert s. induction p as [|x p IH]; intros s Hs.
  - now exists s.
  - destruct s as [|y s]; simpl in Hs; [discriminate|].
    apply andb_true_iff in Hs as [Hxy Hp].
    apply beq_eq in Hxy. subst y.
    destruct (IH _ Hp) as [t ->]. now exists t.
Qed.

Lemma find_Some (sub s : list A) (i : nat) :
  find sub s = Some i ->
  exists t, s = firstn i s ++ sub ++ t /\ skipn (i + List.length sub) s = t.
Proof.
  revert i. induction s as [|x s IH]; intros i; simpl.
  - destruct (startswith sub []) eqn:E; [|discriminate].
    intros [= <-]. destruct sub; [|discriminate]. now exists [].
  - destruct (startswith sub (x :: s)) eqn:E.
    + intros [= <-]. destruct (startswith_inv _ _ E) as [t Ht].
      exists t. simpl. split; [exact Ht|].
      rewrite Ht. now rewrite skipn_app, skipn_all, Nat.sub_diag.
    + destruct (find sub s) as [j|] eqn:Ej; [|discriminate].
      intros [= <-]. destruct (IH _ eq_refl) as [t [Ht Hs]].
      exists t. simpl. split; [now rewrite <- Ht | exact Hs].
Qed.

Lemma find_app_sub (sub s t : list A) :
  exists i, find sub (s ++ sub ++ t) = Some i.
Proof.
  induction s as [|x s [i IH]]; simpl.
  - destruct sub; simpl.
    + destruct t; now exists O.
    + exists O. now rewrite beq_refl, startswith_app.
  - destruct (startswith sub (x :: s ++ sub ++ t)).
    + now exists O.
    + rewrite IH. now exists (S i).
Qed.

Lemma contains_find (sub s : list A) :
  contains sub s = true <-> exists i, find sub s = Some i.
Proof.
  unfold contains. destruct (find sub s) as [i|].
  - split; [now exists i | reflexivity].
  - split; [discriminate | now intros [i Hi]].
Qed.

Lemma contains_app (sub s t : list A) : contains sub (s ++ sub ++ t) = true.
Proof. apply contains_find, find_app_sub. Qed.

Lemma split_skip_jump (sep p s : list A) :
  split_skip sep (List.length p) (p ++ s) = split_skip sep O s.
Proof.
  induction p as [|x p IH]; simpl; [|exact IH].
  destruct s; reflexivity.
Qed.

Lemma split_sep (sep s : list A) :
  sep <> [] -> split sep (sep ++ s) = [] :: split sep s.
Proof.
  intros Hsep. destruct sep as [|x sep]; [contradiction|].
  unfold split. simpl app. cbn [split_skip].
  change (x :: sep ++ s) with ((x :: sep) ++ s).
  rewrite startswith_app.
  replace (List.length (x :: sep) - 1)%nat with (List.length sep)
    by (simpl; lia).
  now rewrite split_skip_jump.
Qed.

Lemma split_other (sep : list A) (x : A) (s : list A) :
  startswith sep (x :: s) = false ->
  split sep (x :: s) = push x (split sep s).
Proof. intros Hs. unfold split. cbn [split_skip]. now rewrite Hs. Qed.


(** The three equations above cover every string; they give an induction
    principle that follows the scan. *)
Lemma split_ind (sep : list A) (P : list A -> Prop) :
  sep <> [] ->
  P [] ->
  (forall s, P s -> P (sep ++ s)) ->
  (forall x s, startswith sep (x :: s) = false -> P s -> P (x :: s)) ->
  forall s, P s.
Proof.
  intros Hsep Hnil Hmatch Hother s.
  remember (List.length s) as n eqn:Hn.
  revert s Hn. induction n as [n IH] using lt_wf_ind. intros s Hn.
  destruct s as [|x s]; [exact Hnil|].
  destruct (startswith sep (x :: s)) eqn:E.
  - destruct (startswith_inv _ _ E) as [t Ht]. rewrite Ht.
    apply Hmatch. apply (IH (List.length t)); [|reflexivity].
    subst n. rewrite Ht, length_app.
    destruct sep; [contradiction|]. simpl. lia.
  - apply Hother; [exact E|]. apply (IH (List.length s)); [|reflexivity].
    subst n. simpl. lia.
Qed.

Lemma split_not_nil (sep s : list A) : sep <> [] -> split sep s <> [].
Proof.
  intros Hsep. pattern s. apply (split_ind (sep := sep)); try assumption.
  - discriminate.
  - intros t _. now rewrite split_sep by assumption.
  - intros x t Hx Ht. rewrite split_other by assumption.
    destruct (split sep t); discriminate.
Qed.

Lemma join_cons (sep l : list A) (ls : list (list A)) :
  ls <> [] -> join sep (l :: ls) = l ++ sep ++ join sep ls.
Proof. destruct ls; [contradiction | reflexivity]. Qed.

Lemma join_push (sep : list A) (x : A) (ls : list (list A)) :
  ls <> [] -> join sep (push x ls) = x :: join sep ls.
Proof.
  destruct ls as [|l [|l' ls]]; [contradiction| reflexivity | reflexivity].
Qed.

(** Joining the pieces with the separator gives the string back. *)
Lemma join_split (sep s : list A) : sep <> [] -> join sep (split sep s) = s.
Proof.
  intros Hsep. pattern s. apply (split_ind (sep := sep)); try assumption.
  - reflexivity.
  - intros t IH. rewrite split_sep by assumption.
    rewrite join_cons by now apply split_not_nil.
    now rewrite IH.
  - intros x t Hx IH. rewrite split_other by assumption.
    rewrite join_push by now apply split_not_nil.
    now rewrite IH.
Qed.

End Facts.
End SeqFacts.

(** ** The UTF-8 codec *)

Ltac Zify.zify_post_hook ::= Z.to_euclidean_division_equations.

(** Decides the comparisons of the goal, innermost first. *)
Ltac cmp :=
  repeat match goal with
  | |- context [?a =? ?b] => destruct (N.eqb_spec a b); try lia
  | |- context [?a <? ?b] => destruct (N.ltb_spec a b); try lia
  | |- context [?a <=? ?b] => destruct (N.leb_spec a b); try lia
  end.

Module Utf8Facts.
Import Utf8.

Lemma to_N_byte_of_N (n : N) : n < 256 -> Byte.to_N (byte_of_N n) = n.
Proof.
  intros Hn. unfold byte_of_N. destruct (Byte.of_N n) as [b|] eqn:E.
  - now apply Byte.to_of_N.
  - apply Byte.of_N_None_iff in E. lia.
Qed.

Lemma byte_of_N_to_N (b : byte) : byte_of_N (Byte.to_N b) = b.
Proof. unfold byte_of_N. now rewrite Byte.of_to_N. Qed.

Lemma first_item_1 (b : byte) (r : bytes) :
  Byte.to_N b < 0x80 -> first_item (b :: r) = (Some (Byte.to_N b), 1%nat).
Proof. intros Hb. unfold first_item. cmp. reflexivity. Qed.

Lemma first_item_2 (b1 b2 : byte) (r : bytes) :
  0xC2 <= Byte.to_N b1 < 0xE0 -> 0x80 <= Byte.to_N b2 <= 0xBF ->
  first_item (b1 :: b2 :: r)
  = (Some ((Byte.to_N b1 - 0xC0) * 64 + (Byte.to_N b2 - 0x80)), 2%nat).
Proof.
  intros H1 H2. unfold first_item, is_cont, in_range, cont_bits. cmp.
  reflexivity.
Qed.

Lemma first_item_3 (b1 b2 b3 : byte) (r : bytes) :
  0xE0 <= Byte.to_N b1 < 0xF0 ->
  0x80 <= Byte.to_N b2 <= 0xBF ->
  (Byte.to_N b1 = 0xE0 -> 0xA0 <= Byte.to_N b2) ->
  (Byte.to_N b1 = 0xED -> Byte.to_N b2 <= 0x9F) ->
  0x80 <= Byte.to_N b3 <= 0xBF ->
  first_item (b1 :: b2 :: b3 :: r)
  = (Some ((Byte.to_N b1 - 0xE0) * 4096 + (Byte.to_N b2 - 0x80) * 64
           + (Byte.to_N b3 - 0x80)), 3%nat).
Proof.
  intros H1 H2 Ha Hb H3. unfold first_item, is_cont, in_range, cont_bits.
  cmp; reflexivity.
Qed.

Lemma first_item_4 (b1 b2 b3 b4 : byte) (r : bytes) :
  0xF0 <= Byte.to_N b1 < 0xF5 ->
  0x80 <= Byte.to_N b2 <= 0xBF ->
  (Byte.to_N b1 = 0xF0 -> 0x90 <= Byte.to_N b2) ->
  (Byte.to_N b1 = 0xF4 -> Byte.to_N b2 <= 0x8F) ->
  0x80 <= Byte.to_N b3 <= 0xBF ->
  0x80 <= Byte.to_N b4 <= 0xBF ->
  first_item (b1 :: b2 :: b3 :: b4 :: r)
  = (Some ((Byte.to_N b1 - 0xF0) * 262144 + (Byte.to_N b2 - 0x80) * 4096
           + (Byte.to_N b3 - 0x80) * 64 + (Byte.to_N b4 - 0x80)), 4%nat).
Proof.
  intros H1 H2 Ha Hb H3 H4. unfold first_item, is_cont, in_range, cont_bits.
  cmp; reflexivity.
Qed.

(** Decoding what [encode_char] produced gives the code point back and
    takes exactly its bytes. *)
Lemma Some_inj {A} (a b : A) : Some a = Some b -> a = b.
Proof. now intros [=]. Qed.

Lemma first_item_encode_char (c : N) (bs rest : bytes) :
  c < 0x110000 -> encode_char c = Some bs ->
  first_item (bs ++ rest) = (Some c, List.length bs) /\ bs <> [].
Proof.
  intros Hc. unfold encode_char, is_surrogate.
  destruct (N.ltb_spec c 0x80);
    [|destruct (N.ltb_spec c 0x800); [|destruct (N.ltb_spec c 0x10000)]].
  - intros <-%Some_inj. split; [|discriminate].
    rewrite <- !app_comm_cons, app_nil_l.
    rewrite first_item_1; rewrite to_N_byte_of_N by lia; [reflexivity|lia].
  - intros <-%Some_inj. split; [|discriminate].
    rewrite <- !app_comm_cons, app_nil_l.
    rewrite first_item_2; rewrite ?to_N_byte_of_N by lia; [|lia ..].
    unfold List.length. do 2 f_equal. lia.
  - destruct (N.leb_spec 0xD800 c); destruct (N.leb_spec c 0xDFFF);
      cbn [andb]; try discriminate;
      intros <-%Some_inj; (split; [|discriminate]);
      rewrite <- !app_comm_cons, app_nil_l;
      (rewrite first_item_3; rewrite ?to_N_byte_of_N by lia; [|lia ..]);
      unfold List.length; do 2 f_equal; lia.
  - intros <-%Some_inj. split; [|discriminate].
    rewrite <- !app_comm_cons, app_nil_l.
    rewrite first_item_4; rewrite ?to_N_byte_of_N by lia; [|lia ..].
    unfold List.length. do 2 f_equal. lia.
Qed.

Lemma scan_skip_jump (p s : bytes) : scan_skip (List.length p) (p ++ s) = scan s.
Proof.
  induction p as [|b p IH]; simpl; [|exact IH].
  destruct s; reflexivity.
Qed.

Lemma scan_item (p s : bytes) (item : option N) :
  p <> [] -> first_item (p ++ s) = (item, List.length p) ->
  scan (p ++ s) = item :: scan s.
Proof.
  intros Hp Hi. destruct p as [|b p]; [contradiction|].
  unfold scan at 1. simpl app in *. cbn [scan_skip]. rewrite Hi.
  replace (List.length (b :: p) - 1)%nat with (List.length p) by (simpl; lia).
  now rewrite scan_skip_jump.
Qed.

Lemma scan_encode_char (c : N) (bs rest : bytes) :
  c < 0x110000 -> encode_char c = Some bs ->
  scan (bs ++ rest) = Some c :: scan rest.
Proof.
  intros Hc Hbs. destruct (first_item_encode_char rest Hc Hbs) as [Hi Hne].
  now apply scan_item.
Qed.

Lemma encode_app (s t : str) (bs bt : bytes) :
  encode s = Return bs -> encode t = Return bt ->
  encode (s ++ t) = Return (bs ++ bt).
Proof.
  revert bs. induction s as [|c s IH]; intros bs; simpl.
  - now intros [= <-].
  - destruct (encode_char c) as [bc|]; [|discriminate].
    destruct (encode s) as [bs'|]; simpl; [|discriminate].
    intros [= <-] Ht. rewrite (IH _ eq_refl Ht). simpl.
    now rewrite app_assoc.
Qed.

Lemma encode_app_inv (s t : str) (b : bytes) :
  encode (s ++ t) = Return b ->
  exists bs bt, encode s = Return bs /\ encode t = Return bt /\ b = bs ++ bt.
Proof.
  revert b. induction s as [|c s IH]; intros b; simpl.
  - intros Ht. now exists [], b.
  - destruct (encode_char c) as [bc|]; [|discriminate].
    destruct (encode (s ++ t)) as [b'|] eqn:E; simpl; [|discriminate].
    intros [= <-]. destruct (IH _ eq_refl) as (bs & bt & -> & -> & ->).
    exists (bc ++ bs), bt. simpl. now rewrite app_assoc.
Qed.

Lemma all_scalar_no_surrogate (s : str) :
  all_scalar s = true -> no_surrogate s = true.
Proof.
  unfold all_scalar, no_surrogate. rewrite !forallb_forall.
  intros Hs c Hc. specialize (Hs c Hc). unfold is_scalar in Hs.
  now apply andb_true_iff in Hs.
Qed.

Lemma all_scalar_app (s t : str) :
  all_scalar (s ++ t) = all_scalar s && all_scalar t.
Proof. apply forallb_app. Qed.

(** [str.encode()] raises on lone surrogates and on nothing else. *)
Lemma encode_total (s : str) :
  no_surrogate s = true -> exists bs, encode s = Return bs.
Proof.
  induction s as [|c s IH]; simpl; [eauto|].
  intros Hs. apply andb_true_iff in Hs as [Hc Hs].
  apply negb_true_iff in Hc.
  destruct (IH Hs) as [bs ->]. unfold encode_char. rewrite Hc.
  repeat match goal with |- context [if ?b then _ else _] => destruct b end;
    simpl; eauto.
Qed.

Lemma encode_surrogate (s t : str) (c : N) :
  no_surrogate s = true -> is_surrogate c = true ->
  encode (s ++ c :: t) = Raise UnicodeEncodeError.
Proof.
  intros Hs Hc. induction s as [|x s IH]; simpl.
  - unfold encode_char. rewrite Hc. unfold is_surrogate in Hc.
    apply andb_true_iff in Hc as [H1 H2].
    apply N.leb_le in H1, H2. cmp. reflexivity.
  - simpl in Hs. apply andb_true_iff in Hs as [Hx Hs].
    rewrite (IH Hs). destruct (encode_char x); reflexivity.
Qed.

(** Decoding inverts encoding. *)
Lemma decode_encode (s : str) (bs : bytes) :
  all_scalar s = true -> encode s = Return bs -> decode_replace bs = s.
Proof.
  revert bs. induction s as [|c s IH]; intros bs; simpl.
  - now intros _ [= <-].
  - intros Hs. apply andb_true_iff in Hs as [Hc Hs].
    destruct (encode_char c) as [bc|] eqn:Ec; [|discriminate].
    destruct (encode s) as [bs'|]; simpl; [|discriminate].
    intros [= <-]. unfold decode_replace.
    unfold is_scalar in Hc. apply andb_true_iff in Hc as [Hc _].
    apply N.ltb_lt in Hc.
    rewrite (scan_encode_char bs' Hc Ec). simpl. f_equal. now apply IH.
Qed.

(** Whatever the bytes, the decoder yields code points that encode again. *)
Lemma first_item_scalar (bs : bytes) :
  match first_item bs with
  | (Some c, _) => is_scalar c = true
  | (None, _) => True
  end.
Proof.
  destruct bs as [|b1 [|b2 [|b3 [|b4 r]]]]; [exact I|..];
    unfold first_item, is_cont, in_range, cont_bits;
    pose proof (Byte.to_N_bounded b1);
    try pose proof (Byte.to_N_bounded b2);
    try pose proof (Byte.to_N_bounded b3);
    try pose proof (Byte.to_N_bounded b4);
    cmp; cbn [andb]; try exact I;
    unfold is_scalar, is_surrogate; cmp; reflexivity.
Qed.

Lemma scan_skip_scalar (bs : bytes) (skip : nat) :
  Forall (fun o => match o with Some c => is_scalar c = true | None => True end)
         (scan_skip skip bs).
Proof.
  revert skip. induction bs as [|b bs IH]; intros skip; cbn [scan_skip];
    [constructor|].
  destruct skip as [|k]; [|apply IH].
  pose proof (first_item_scalar (b :: bs)) as Hi.
  destruct (first_item (b :: bs)) as [item n].
  constructor; [|apply IH]. destruct item; [exact Hi | exact I].
Qed.

Lemma decode_replace_scalar (bs : bytes) : all_scalar (decode_replace bs) = true.
Proof.
  unfold all_scalar, decode_replace, scan.
  induction (scan_skip_scalar bs 0) as [|o l Ho _ IH]; simpl; [reflexivity|].
  rewrite IH, andb_true_r. destruct o; [exact Ho | reflexivity].
Qed.

(** So re-encoding decoded text never raises. *)
Lemma encode_decode_replace (bs : bytes) :
  exists bs', encode (decode_replace bs) = Return bs'.
Proof.
  apply encode_total, all_scalar_no_surrogate, decode_replace_scalar.
Qed.

(** ASCII text is its own encoding. *)
Lemma scan_ascii (bs : bytes) :
  all_ascii bs = true -> scan bs = map (fun b => Some (Byte.to_N b)) bs.
Proof.
  induction bs as [|b bs IH]; simpl; [reflexivity|].
  intros Hb. apply andb_true_iff in Hb as [Hb Hbs]. apply N.ltb_lt in Hb.
  change (b :: bs) with ([b] ++ bs).
  rewrite (@scan_item [b] bs (Some (Byte.to_N b))).
  - simpl. now rewrite IH.
  - discriminate.
  - simpl app. now rewrite first_item_1.
Qed.

Lemma decode_ascii (bs : bytes) :
  all_ascii bs = true -> decode bs = Return (map Byte.to_N bs).
Proof.
  intros Hbs. unfold decode, decode_replace. rewrite (scan_ascii _ Hbs).
  replace (forallb _ (map _ bs)) with true
    by (clear Hbs; induction bs; simpl; auto).
  now rewrite map_map.
Qed.

Lemma decode_replace_ascii (bs : bytes) :
  all_ascii bs = true -> decode_replace bs = map Byte.to_N bs.
Proof.
  intros Hbs. unfold decode_replace. rewrite (scan_ascii _ Hbs).
  now rewrite map_map.
Qed.


End Utf8Facts.

(** ** Sockets and the relay *)

Section RelayFacts.
Local Open Scope nat_scope.

Lemma recv_keeps (s : Socket) :
  close_calls (snd (recv s)) = close_calls s
  /\ sent (snd (recv s)) = sent s
  /\ List.length (rx (snd (recv s))) <= List.length (rx s).
Proof.
  unfold recv. destruct (0 <? close_calls s); [simpl; auto|].
  destruct (rx s) as [|[chunk|] r] eqn:E; simpl; rewrite ?E; simpl;
    repeat split; lia.
Qed.

Lemma recv_data (s s' : Socket) (data : bytes) :
  recv s = (Return data, s') -> data <> [] ->
  List.length (rx s') < List.length (rx s).
Proof.
  unfold recv. destruct (0 <? close_calls s); [discriminate|].
  destruct (rx s) as [|[chunk|] r] eqn:E; intros [= <- <-]; simpl;
    [contradiction|rewrite ?E; simpl; lia].
Qed.

Lemma sendall_keeps (s : Socket) (data : bytes) :
  close_calls (snd (sendall s data)) = close_calls s
  /\ rx (snd (sendall s data)) = rx s
  /\ exists tail, sent (snd (sendall s data)) = sent s ++ tail.
Proof.
  unfold sendall. destruct (0 <? close_calls s).
  - simpl. repeat split. exists []. now rewrite app_nil_r.
  - destruct (tx_ok s) as [|[|] t]; simpl; repeat split;
      solve [now exists data | exists []; now rewrite app_nil_r].
Qed.

Lemma sendall_ok (s s' : Socket) (data : bytes) :
  sendall s data = (Return tt, s') ->
  sent s' = sent s ++ data /\ close_calls s' = close_calls s /\ rx s' = rx s.
Proof.
  unfold sendall. destruct (0 <? close_calls s); [discriminate|].
  destruct (tx_ok s) as [|[|] t]; intros [= <-]; simpl; auto.
Qed.

Lemma relay_inv_opposite (d : direction) (a b : nat) (sa sb : bytes)
    (own other : pc) (w : World) :
  relay_inv d a b sa sb own other w ->
  relay_inv (opposite d) b a sb sa other own w.
Proof.
  intros [H1 H2 H3 H4 H5]. destruct d; constructor; cbn in *; auto; lia.
Qed.

Lemma app_tail_trans {A} (a b c x y : list A) :
  b = a ++ x -> c = b ++ y -> exists z, c = a ++ z.
Proof. intros -> ->. exists (x ++ y). now rewrite app_assoc. Qed.

Ltac relay_inv_step :=
  constructor; cbn in *; eauto; try lia;
  try (eapply app_tail_trans; eassumption).

(** One socket call of the thread of direction [d]. *)
Lemma forward_step_inv (d : direction) (a b : nat) (sa sb : bytes)
    (own other : pc) (w : World) :
  relay_inv d a b sa sb own other w ->
  relay_inv d a b sa sb (fst (forward_step d own w)) other
            (snd (forward_step d own w))
  /\ (is_finished own = false ->
      calls_left d (fst (forward_step d own w)) (snd (forward_step d own w))
      < calls_left d own w)
  /\ calls_left (opposite d) other (snd (forward_step d own w))
     = calls_left (opposite d) other w.
Proof.
  intros [Hc Hu [x Hx] [y Hy] Hr].
  destruct d; destruct own as [|data| | |]; cbn [forward_step source dest] in *.
  all: try (split; [relay_inv_step|];
            (split; [intros _; cbn; lia| destruct other; cbn; reflexivity])).
  all: try (cbn; split; [constructor; cbn; eauto|];
            split; [discriminate|reflexivity]).
  all: try match goal with
    | |- context [recv ?s] =>
      pose proof (recv_keeps s) as (Hk1 & Hk2 & Hk3);
      destruct (recv s) as [[[|b0 d0]|e] s'] eqn:Er; cbn [fst snd] in *;
      (split; [constructor; cbn; rewrite ?Hk1, ?Hk2; eauto; lia|]);
      (split; [intros _; destruct other; cbn; try lia
              | destruct other; cbn; reflexivity]);
      try (assert (List.length (rx s') < List.length (rx s))
             by (eapply recv_data; [exact Er|discriminate]); lia)
    | |- context [sendall ?s ?data] =>
      pose proof (sendall_keeps s data) as (Hk1 & Hk2 & [z Hz]);
      destruct (sendall s data) as [[[]|e] s']; cbn [fst snd] in *;
      (split; [constructor; cbn; rewrite ?Hk1; eauto; try lia;
               eapply app_tail_trans; eassumption|]);
      (split; [intros _; cbn; lia
              | destruct other; cbn; rewrite ?Hk2; reflexivity])
    end.
Qed.

Lemma is_finished_calls_left (d : direction) (p : pc) (w : World) :
  calls_left d p w = 0 -> p = Finished.
Proof. destruct p; cbn; intros; try lia; reflexivity. Qed.

Lemma is_finished_true (p : pc) : is_finished p = true -> p = Finished.
Proof. destruct p; try discriminate; reflexivity. Qed.

Lemma pop_schedule_inv (d : direction) (a b : nat) (sa sb : bytes)
    (own other : pc) (w : World) :
  relay_inv d a b sa sb own other w ->
  relay_inv d a b sa sb own other (snd (pop_schedule w))
  /\ (forall d' p, calls_left d' p (snd (pop_schedule w)) = calls_left d' p w).
Proof.
  intros [H1 H2 H3 H4 H5]. unfold pop_schedule.
  destruct (schedule w); cbn [snd]; (split; [|intros [] []; reflexivity]);
    constructor; assumption.
Qed.

(** Given the calls they can still make, both threads finish. *)
Lemma run_threads_finish (c u : nat) (cs us : bytes) (fuel : nat) :
  forall (t1 t2 : pc) (w : World),
  relay_inv ClientToUpstream c u cs us t1 t2 w ->
  calls_left ClientToUpstream t1 w + calls_left UpstreamToClient t2 w <= fuel ->
  exists w',
    run_threads fuel t1 t2 w = (Finished, Finished, w')
    /\ relay_inv ClientToUpstream c u cs us Finished Finished w'.
Proof.
  induction fuel as [|fuel IH]; intros t1 t2 w Hinv Hfuel.
  - assert (t1 = Finished) by (eapply is_finished_calls_left with (w := w) (d := ClientToUpstream); lia).
    assert (t2 = Finished) by (eapply is_finished_calls_left with (w := w) (d := UpstreamToClient); lia).
    subst. exists w. now split.
  - cbn [run_threads].
    destruct (is_finished t1 && is_finished t2) eqn:Eboth.
    + apply andb_true_iff in Eboth as [E1 E2].
      apply is_finished_true in E1, E2. subst. exists w. now split.
    + destruct (pop_schedule_inv Hinv) as [Hinv' Hcalls].
      destruct (pop_schedule w) as [turn w0]. cbn [snd] in *.
      destruct ((turn && negb (is_finished t1)) || is_finished t2) eqn:Eturn.
      * assert (E1 : is_finished t1 = false).
        { destruct (is_finished t1); [|reflexivity].
          destruct (is_finished t2); [discriminate|].
          now rewrite andb_false_r in Eturn. }
        destruct (forward_step_inv Hinv') as (Hi & Hlt & Heq).
        specialize (Hlt E1). cbn [opposite] in Heq.
        destruct (forward_step ClientToUpstream t1 w0) as [t1' w'].
        cbn [fst snd] in *. apply IH; [exact Hi|].
        rewrite Heq, !Hcalls in *. lia.
      * assert (E2 : is_finished t2 = false).
        { apply orb_false_iff in Eturn. tauto. }
        apply relay_inv_opposite in Hinv'. cbn [opposite] in Hinv'.
        destruct (forward_step_inv Hinv') as (Hi & Hlt & Heq).
        specialize (Hlt E2). cbn [opposite] in Heq.
        destruct (forward_step UpstreamToClient t2 w0) as [t2' w'].
        cbn [fst snd] in *. apply IH.
        -- apply relay_inv_opposite in Hi. exact Hi.
        -- rewrite Heq, !Hcalls in *. lia.
Qed.

(** The relay: both threads run to their end; each socket gets two calls of
    [close], one from each thread, and nothing sent before is lost. *)
Lemma relay_spec (w : World) :
  reported w = [] -> upstream_created w = true ->
  close_calls (client (relay w)) = close_calls (client w) + 2
  /\ close_calls (upstream (relay w)) = close_calls (upstream w) + 2
  /\ (exists tail, sent (client (relay w)) = sent (client w) ++ tail)
  /\ (exists tail, sent (upstream (relay w)) = sent (upstream w) ++ tail)
  /\ reported (relay w) = [] /\ upstream_created (relay w) = true.
Proof.
  intros Hr Hu.
  assert (Hinv : relay_inv ClientToUpstream (close_calls (client w) + 2)
                   (close_calls (upstream w) + 2) (sent (client w))
                   (sent (upstream w)) AtRecv AtRecv w).
  { constructor; cbn; auto; exists []; now rewrite app_nil_r. }
  unfold relay.
  destruct (run_threads_finish Hinv (le_n _)) as (w' & -> & [H1 H2 H3 H4 H5]).
  cbn in *. repeat split; try tauto; lia.
Qed.

End RelayFacts.

(** ** The handler, path by path *)

Ltac world_simpl :=
  unfold start, set_client, set_upstream, set_rx, close, report, closed_both,
    forwarded;
  cbn [client upstream upstream_created connect_ok schedule reported
       rx tx_ok sent close_calls fst snd].

Section HandlerFacts.
Context {L : PyLib}.

Lemma sendall_start (rx0 : list recv_result) (tx : list bool) (data : bytes) :
  hd true tx = true ->
  sendall {| rx := rx0; tx_ok := tx; sent := []; close_calls := 0 |} data
  = (Return tt, {| rx := rx0; tx_ok := tl tx; sent := data; close_calls := 0 |}).
Proof.
  intros Htx. unfold sendall. cbn.
  destruct tx as [|[|] t]; cbn in *; try discriminate; reflexivity.
Qed.



Lemma stream_response_keeps (rx0 : list recv_result) (c : Socket) :
  close_calls (snd (stream_response rx0 c)) = close_calls c
  /\ exists tail, sent (snd (stream_response rx0 c)) = sent c ++ tail.
Proof.
  revert c. induction rx0 as [|[[|b chunk]|] r IH]; intros c;
    cbn [stream_response snd];
    try (split; [reflexivity | exists []; now rewrite app_nil_r]).
  pose proof (sendall_keeps c (b :: chunk)) as (Hc & _ & [x Hx]).
  destruct (sendall c (b :: chunk)) as [[[]|ex] c']; cbn [snd] in *.
  - destruct (IH c') as [Hc' [y Hy]]. split; [congruence|].
    eapply app_tail_trans; eassumption.
  - split; [assumption | now exists x].
Qed.

(** How often each socket is closed, by the way the call ends. *)
Lemma handle_client_closes (upstream_proxy : UpstreamTarget) (e : Script) :
  let '(o, w) := handle_client upstream_proxy (start e) in
  match o with
  | ClientGone =>
    close_calls (client w) = 1%nat /\ upstream_created w = false
  | Tunnelled =>
    close_calls (client w) = 2%nat /\ close_calls (upstream w) = 2%nat
  | TunnelRefused | PlainDone =>
    close_calls (client w) = 1%nat /\ close_calls (upstream w) = 1%nat
  | Errored _ =>
    close_calls (client w) = 1%nat /\ close_calls (upstream w) = 0%nat
  end.
Proof.
  unfold handle_client, handle_client_try, mbind, client_read_request.
  world_simpl.
  destruct (read_request (client_rx e) []) as [[[request|]|ex] crx];
    [|unfold client_close, ret; world_simpl; auto
     |world_simpl; auto].
  destruct (split_request request) as [lines body].
  unfold upstream_socket, upstream_connect, lift. world_simpl.
  destruct (host upstream_proxy); [|world_simpl; auto].
  destruct (upstream_connect_ok e); [|world_simpl; auto].
  destruct (create_auth_header _ _) as [auth_header|]; [|world_simpl; auto].
  destruct (Seq.startswith _ _);
    (destruct (new_request _ _ _) as [nr|]; [|world_simpl; auto]);
    unfold upstream_sendall; world_simpl;
    match goal with |- context [sendall ?s ?d] =>
      pose proof (sendall_keeps s d) as (Hc & _ & _);
      destruct (sendall s d) as [[[]|?] up]; cbn [snd close_calls] in Hc;
      [|world_simpl; auto]
    end.
  - unfold upstream_read_response. world_simpl.
    destruct (read_response (rx up) []) as [[response|] urx];
      [|world_simpl; auto].
    unfold client_sendall. world_simpl.
    match goal with |- context [sendall ?s ?d] =>
      pose proof (sendall_keeps s d) as (Hc' & _ & _);
      destruct (sendall s d) as [[[]|?] cl]; cbn [snd close_calls] in Hc';
      [|world_simpl; auto]
    end.
    destruct (connection_established response).
    + match goal with |- context [relay ?w] =>
        destruct (@relay_spec w) as (H1 & H2 & _); [reflexivity..|]
      end.
      world_simpl. cbn [client upstream close_calls] in H1, H2.
      split; lia.
    + unfold client_close, upstream_close, ret. world_simpl. split; lia.
  - unfold upstream_stream_response. world_simpl.
    match goal with |- context [stream_response ?r ?c] =>
      pose proof (stream_response_keeps r c) as (Hc' & _);
      destruct (stream_response r c) as [[[[]|?] urx] cl];
      cbn [snd close_calls] in Hc'
    end.
    + unfold client_close, upstream_close, ret. world_simpl. split; lia.
    + world_simpl. split; lia.
Qed.

End HandlerFacts.

(** ** Base64 and the credential header *)

Module Base64Facts.
Import Base64.

Lemma digit_ascii (n : N) : (Byte.to_N (digit n) <? 0x80) = true.
Proof.
  unfold digit.
  destruct (nth_in_or_default (N.to_nat n) alphabet x3d) as [Hin | ->];
    [|reflexivity].
  assert (Hall : Utf8.all_ascii alphabet = true) by reflexivity.
  unfold Utf8.all_ascii in Hall. rewrite forallb_forall in Hall.
  now apply Hall.
Qed.

Lemma b64encode_ascii (bs : bytes) : Utf8.all_ascii (b64encode bs) = true.
Proof.
  assert (H : forall n (l : bytes), (List.length l <= n)%nat ->
              Utf8.all_ascii (b64encode l) = true).
  { induction n as [|n IH]; intros l Hl.
    - destruct l; [reflexivity | simpl in Hl; lia].
    - destruct l as [|a [|b [|c r]]]; [reflexivity|..];
        cbn [b64encode Utf8.all_ascii forallb]; rewrite ?digit_ascii;
        try reflexivity.
      cbn [andb]. apply (IH r). simpl in Hl. lia. }
  now apply (H (List.length bs)).
Qed.

End Base64Facts.

Lemma falsy_spec (s : option str) :
  falsy s = true <-> s = None \/ s = Some [].
Proof.
  destruct s as [[|c s]|]; simpl; split; auto; try discriminate;
    intros [H|H]; discriminate.
Qed.

Lemma create_auth_header_falsy (username password : option str) :
  falsy username = true \/ falsy password = true ->
  create_auth_header username password = Return None.
Proof.
  intros [H|H]; unfold create_auth_header; rewrite H;
    [reflexivity | now rewrite orb_true_r].
Qed.

Lemma create_auth_header_present (u p : str) (raw : bytes) :
  u <> [] -> p <> [] ->
  Utf8.encode (u ++ u_lit ":" ++ p) = Return raw ->
  create_auth_header (Some u) (Some p)
  = Return (Some (u_lit "Basic " ++ map Byte.to_N (Base64.b64encode raw))).
Proof.
  intros Hu Hp Hraw. unfold create_auth_header.
  destruct u as [|u0 u]; [contradiction|].
  destruct p as [|p0 p]; [contradiction|].
  cbn [falsy orb format_str]. rewrite Hraw. cbn [bind].
  rewrite Utf8Facts.decode_ascii by apply Base64Facts.b64encode_ascii.
  reflexivity.
Qed.

(** ** Rewriting the request *)

Section RewriteFacts.
Context {L : PyLib}.
Import Unicode.

Lemma N_beq_false (x y : N) : x <> y -> beq x y = false.
Proof. intros H. now apply N.eqb_neq. Qed.

(** [line.lower().startswith(pattern)] compares ASCII letters without
    their case and nothing else. *)
Lemma startswith_lower_from (pattern : str) :
  charwise pattern = true ->
  forall before s,
  Seq.startswith pattern (lower_from before s)
  = Seq.startswith pattern (map ascii_lower s).
Proof.
  induction pattern as [|x p IH]; intros Hp before s; [reflexivity|].
  cbn [charwise] in Hp.
  apply andb_true_iff in Hp as [Hp Hrest].
  apply andb_true_iff in Hp as [Hp Hi].
  apply andb_true_iff in Hp as [Hx Hk].
  apply N.ltb_lt in Hx. apply negb_true_iff, N.eqb_neq in Hk.
  destruct s as [|c s]; [reflexivity|].
  cbn [lower_from map]. unfold is_ascii.
  destruct (N.ltb_spec c 0x80) as [Hc|Hc].
  - cbn [app Seq.startswith]. now rewrite IH.
  - assert (Hrhs : Seq.startswith (x :: p) (ascii_lower c :: map ascii_lower s)
                   = false).
    { cbn [Seq.startswith]. unfold ascii_lower.
      destruct ((0x41 <=? c) && (c <=? 0x5A)) eqn:E.
      - apply andb_true_iff in E as [_ E]. apply N.leb_le in E. lia.
      - rewrite N_beq_false by lia. reflexivity. }
    rewrite Hrhs.
    destruct (N.eqb_spec c 0x130); [|destruct (N.eqb_spec c 0x212A)].
    + cbn [app Seq.startswith].
      destruct (N.eqb_spec x 0x69) as [->|Hne].
      * cbn [negb orb] in Hi. destruct p as [|y p]; [discriminate|].
        cbn [charwise] in Hrest.
        apply andb_true_iff in Hrest as [Hy _].
        apply andb_true_iff in Hy as [Hy _].
        apply andb_true_iff in Hy as [Hy _]. apply N.ltb_lt in Hy.
        cbn [Seq.startswith]. rewrite (@N_beq_false y 0x307) by lia.
        now rewrite andb_false_r.
      * now rewrite N_beq_false by assumption.
    + cbn [app Seq.startswith]. now rewrite N_beq_false by assumption.
    + destruct (lower_nonascii_head before s Hc) as (y & w & -> & Hy).
      cbn [app Seq.startswith]. now rewrite N_beq_false by lia.
Qed.

Lemma is_proxy_auth_spec (line : str) :
  is_proxy_auth line = names_proxy_authorization line.
Proof.
  unfold is_proxy_auth, names_proxy_authorization, lower.
  now apply startswith_lower_from.
Qed.

(** What [new_headers] is made of. *)
Lemma new_headers_unset (lines : list str) (auth_header : option str) :
  falsy auth_header = true ->
  new_headers lines auth_header
  = hd [] lines
    :: filter (fun line => negb (names_proxy_authorization line)) (tl lines).
Proof.
  intros Ha. unfold new_headers. rewrite Ha. f_equal.
  apply filter_ext. intros l. now rewrite is_proxy_auth_spec.
Qed.


Lemma filter_none_left (f : str -> bool) (ls : list str) :
  Forall (fun l => f l = false) (filter (fun l => negb (f l)) ls).
Proof.
  apply Forall_forall. intros l Hl. apply filter_In in Hl as [_ Hl].
  now apply negb_true_iff.
Qed.


(** Decoded text encodes again: the handler never fails on [encode]. *)
Lemma all_scalar_split (sep s : str) :
  sep <> [] -> Utf8.all_scalar s = true ->
  Forall (fun l => Utf8.all_scalar l = true) (Seq.split sep s).
Proof.
  intros Hsep. pattern s. apply (SeqFacts.split_ind (sep := sep)); try assumption.
  - intros _. repeat constructor.
  - intros t IH Ht. rewrite Utf8Facts.all_scalar_app in Ht.
    apply andb_true_iff in Ht as [_ Ht].
    rewrite SeqFacts.split_sep by assumption. constructor; [reflexivity|auto].
  - intros x t Hx IH Ht. cbn [Utf8.all_scalar forallb] in Ht.
    apply andb_true_iff in Ht as [Hxs Ht]. specialize (IH Ht).
    rewrite SeqFacts.split_other by assumption.
    destruct (Seq.split sep t) as [|l r]; cbn [Seq.push].
    + repeat constructor. cbn. now rewrite Hxs.
    + inversion IH; subst. constructor; [|assumption].
      cbn. now rewrite Hxs.
Qed.

Lemma all_scalar_join (sep : str) (ls : list str) :
  Utf8.all_scalar sep = true ->
  Forall (fun l => Utf8.all_scalar l = true) ls ->
  Utf8.all_scalar (Seq.join sep ls) = true.
Proof.
  intros Hsep Hls. induction Hls as [|l ls Hl Hls IH]; [reflexivity|].
  destruct ls as [|l' ls]; [exact Hl|].
  change (Seq.join sep (l :: l' :: ls)) with (l ++ sep ++ Seq.join sep (l' :: ls)).
  now rewrite !Utf8Facts.all_scalar_app, Hl, Hsep, IH.
Qed.

Lemma all_scalar_ascii (bs : bytes) :
  Utf8.all_ascii bs = true -> Utf8.all_scalar (map Byte.to_N bs) = true.
Proof.
  unfold Utf8.all_scalar, Utf8.all_ascii.
  induction bs as [|b bs IH]; [reflexivity|]. cbn [map forallb].
  intros H. apply andb_true_iff in H as [Hb Hbs]. rewrite (IH Hbs).
  apply N.ltb_lt in Hb. unfold Utf8.is_scalar, Utf8.is_surrogate.
  cmp; reflexivity.
Qed.

Lemma new_headers_scalar (lines : list str) (auth_header : option str) :
  Forall (fun l => Utf8.all_scalar l = true) lines ->
  Utf8.all_scalar (format_str auth_header) = true ->
  Forall (fun l => Utf8.all_scalar l = true) (new_headers lines auth_header).
Proof.
  intros Hlines Hauth. unfold new_headers.
  assert (Hkept : Forall (fun l => Utf8.all_scalar l = true)
                    (hd [] lines :: filter (fun line => negb (is_proxy_auth line))
                                      (tl lines))).
  { destruct Hlines as [|l ls Hl Hls]; cbn; constructor; auto.
    apply Forall_forall. intros x Hx. apply filter_In in Hx as [Hx _].
    rewrite Forall_forall in Hls. auto. }
  destruct (falsy auth_header); [assumption|].
  inversion Hkept; subst. cbn [list_insert firstn skipn app].
  repeat constructor; try assumption;
    now rewrite Utf8Facts.all_scalar_app, Hauth.
Qed.

Lemma new_request_total (lines : list str) (auth_header : option str)
    (body : bytes) :
  Forall (fun l => Utf8.all_scalar l = true) lines ->
  Utf8.all_scalar (format_str auth_header) = true ->
  exists head,
    Utf8.encode (Seq.join CRLF (new_headers lines auth_header) ++ CRLF ++ CRLF)
    = Return head
    /\ new_request lines auth_header body = Return (head ++ body).
Proof.
  intros Hlines Hauth. unfold new_request.
  destruct (@Utf8Facts.encode_total
              (Seq.join CRLF (new_headers lines auth_header) ++ CRLF ++ CRLF))
    as [head Hhead].
  - apply Utf8Facts.all_scalar_no_surrogate.
    rewrite Utf8Facts.all_scalar_app. apply andb_true_iff. split; [|reflexivity].
    apply all_scalar_join; [reflexivity|]. now apply new_headers_scalar.
  - exists head. now rewrite Hhead.
Qed.

Lemma split_request_scalar (request : bytes) :
  Forall (fun l => Utf8.all_scalar l = true) (fst (split_request request)).
Proof.
  unfold split_request. cbn [fst].
  apply all_scalar_split; [discriminate|].
  apply Utf8Facts.decode_replace_scalar.
Qed.

(** The header value the encoder makes is ASCII: "Basic " and base64. *)
Lemma create_auth_header_value (username password : option str)
    (auth_header : option str) :
  create_auth_header username password = Return auth_header ->
  auth_header = None
  \/ exists raw,
       Utf8.encode (format_str username ++ u_lit ":" ++ format_str password)
       = Return raw
       /\ auth_header
          = Some (u_lit "Basic " ++ map Byte.to_N (Base64.b64encode raw)).
Proof.
  unfold create_auth_header. destruct (falsy username || falsy password).
  - intros [= <-]. now left.
  - destruct (Utf8.encode _) as [raw|]; [|discriminate]. cbn [bind].
    rewrite Utf8Facts.decode_ascii by apply Base64Facts.b64encode_ascii.
    cbn [bind]. intros [= <-]. right. now exists raw.
Qed.

Lemma create_auth_header_scalar (username password : option str)
    (auth_header : option str) :
  create_auth_header username password = Return auth_header ->
  Utf8.all_scalar (format_str auth_header) = true /\ falsy auth_header = (match auth_header with None => true | Some _ => false end).
Proof.
  intros H. destruct (create_auth_header_value _ _ H) as [->|(raw & _ & ->)].
  - split; reflexivity.
  - split; [|reflexivity]. cbn [format_str].
    rewrite Utf8Facts.all_scalar_app. apply andb_true_iff. split; [reflexivity|].
    apply all_scalar_ascii, Base64Facts.b64encode_ascii.
Qed.

(** Whatever the request, forwarding it fails on nothing but the credential. *)
Lemma forwarded_request_total (upstream_proxy : UpstreamTarget)
    (request : bytes) (auth_header : option str) :
  create_auth_header (username upstream_proxy) (password upstream_proxy)
  = Return auth_header ->
  exists head,
    Utf8.encode (Seq.join CRLF (new_headers (fst (split_request request))
                                            auth_header) ++ CRLF ++ CRLF)
    = Return head
    /\ forwarded_request upstream_proxy request
       = Return (head ++ snd (split_request request)).
Proof.
  intros Hauth. unfold forwarded_request.
  pose proof (split_request_scalar request) as Hlines.
  destruct (split_request request) as [lines body]. cbn [fst snd] in *.
  rewrite Hauth. cbn [bind].
  apply new_request_total; [assumption|].
  now apply (create_auth_header_scalar _ _ Hauth).
Qed.

End RewriteFacts.

(** ** Text and its bytes *)

Module WireFacts.
Import Utf8 Utf8Facts.

Lemma encode_enc (s : str) (bs : bytes) : encode s = Return bs -> bs = enc s.
Proof.
  revert bs. induction s as [|c s IH]; intros bs; cbn [encode enc flat_map].
  - now intros [= <-].
  - unfold enc_char. destruct (encode_char c) as [bc|]; [|discriminate].
    destruct (encode s) as [bs'|]; cbn [bind]; [|discriminate].
    intros [= <-]. f_equal. now apply IH.
Qed.

Lemma enc_encode (s : str) : no_surrogate s = true -> encode s = Return (enc s).
Proof.
  intros Hs. destruct (encode_total s Hs) as [bs Hbs].
  now rewrite Hbs, (encode_enc _ Hbs).
Qed.

Lemma enc_app (s t : str) : enc (s ++ t) = enc s ++ enc t.
Proof. apply flat_map_app. Qed.

Lemma enc_join (sep : str) (ls : list str) :
  enc (Seq.join sep ls) = Seq.join (enc sep) (map enc ls).
Proof.
  induction ls as [|l [|l' ls] IH]; [reflexivity..|].
  change (Seq.join sep (l :: l' :: ls)) with (l ++ sep ++ Seq.join sep (l' :: ls)).
  rewrite !enc_app, IH. reflexivity.
Qed.


(** An ASCII character is one byte, itself; any other scalar value is bytes
    from 0x80 up. *)
Lemma enc_char_cases (c : N) :
  is_scalar c = true ->
  (c < 0x80 /\ enc_char c = [byte_of_N c] /\ Byte.to_N (byte_of_N c) = c)
  \/ (0x80 <= c /\ exists b bs, enc_char c = b :: bs
        /\ Forall (fun b => 0x80 <= Byte.to_N b) (b :: bs)).
Proof.
  unfold is_scalar, enc_char, encode_char. intros Hc.
  apply andb_true_iff in Hc as [Hlt Hs]. apply N.ltb_lt in Hlt.
  apply negb_true_iff in Hs. rewrite Hs.
  destruct (N.ltb_spec c 0x80);
    [|destruct (N.ltb_spec c 0x800); [|destruct (N.ltb_spec c 0x10000)]].
  - left. repeat split; [assumption|]. apply to_N_byte_of_N. lia.
  - right. split; [assumption|]. do 2 eexists. split; [reflexivity|].
    repeat constructor; rewrite to_N_byte_of_N; lia.
  - right. split; [assumption|]. do 2 eexists. split; [reflexivity|].
    repeat constructor; rewrite to_N_byte_of_N; lia.
  - right. split; [assumption|]. do 2 eexists. split; [reflexivity|].
    repeat constructor; rewrite to_N_byte_of_N; lia.
Qed.


Lemma byte_eqb_to_N (a b : byte) : Byte.eqb a b = (Byte.to_N a =? Byte.to_N b).
Proof.
  destruct (N.eqb_spec (Byte.to_N a) (Byte.to_N b)) as [Heq|Hne].
  - apply Byte.byte_dec_lb.
    rewrite <- (byte_of_N_to_N a), <- (byte_of_N_to_N b). now rewrite Heq.
  - destruct (Byte.eqb a b) eqn:E; [|reflexivity].
    apply Byte.byte_dec_bl in E. now subst.
Qed.

Lemma pushes_cons {A} (p l : list A) (r : list (list A)) :
  fold_right Seq.push (l :: r) p = (p ++ l) :: r.
Proof. induction p as [|x p IH]; cbn; [reflexivity | now rewrite IH]. Qed.

(** Elements that cannot begin the separator are passed over. *)
Lemma split_pass {A} {EqA : BEq A} (x0 : A) (sep p u : list A) :
  Forall (fun y => beq x0 y = false) p ->
  Seq.split (x0 :: sep) (p ++ u) = fold_right Seq.push (Seq.split (x0 :: sep) u) p.
Proof.
  induction 1 as [|y p Hy _ IH]; [reflexivity|].
  cbn [app fold_right]. rewrite <- IH. unfold Seq.split at 1.
  cbn [Seq.split_skip Seq.startswith]. now rewrite Hy.
Qed.

(** Whether text begins with an ASCII character shows on its first byte. *)
Lemma enc_first_byte (t : str) (b : byte) :
  all_scalar t = true -> Byte.to_N b < 0x80 ->
  Seq.startswith [b] (enc t) = Seq.startswith [Byte.to_N b] t.
Proof.
  intros Ht Hb. destruct t as [|c t]; [reflexivity|].
  cbn [all_scalar forallb] in Ht. apply andb_true_iff in Ht as [Hc _].
  cbn [enc flat_map].
  destruct (enc_char_cases c Hc) as [(Hlt & -> & Hto) | (Hge & b' & bs & -> & Hall)];
    cbn [app Seq.startswith beq BEq_byte BEq_N]; rewrite byte_eqb_to_N.
  - now rewrite Hto.
  - inversion Hall; subst. rewrite !andb_true_r.
    destruct (N.eqb_spec (Byte.to_N b) (Byte.to_N b'));
      destruct (N.eqb_spec (Byte.to_N b) c); try reflexivity; lia.
Qed.

(** Splitting into lines commutes with encoding. *)
Lemma split_enc (s : str) :
  all_scalar s = true ->
  Seq.split bCRLF (enc s) = map enc (Seq.split CRLF s).
Proof.
  pattern s. apply (SeqFacts.split_ind (sep := CRLF)); [discriminate|..].
  - reflexivity.
  - intros t IH Ht. rewrite all_scalar_app in Ht.
    apply andb_true_iff in Ht as [_ Ht].
    rewrite enc_app. change (enc CRLF) with bCRLF.
    rewrite !SeqFacts.split_sep by discriminate. cbn [map]. now rewrite IH.
  - intros x t Hx IH Ht. cbn [all_scalar forallb] in Ht.
    apply andb_true_iff in Ht as [Hxs Ht]. specialize (IH Ht).
    rewrite SeqFacts.split_other by assumption.
    pose proof (@SeqFacts.split_not_nil _ _ _ CRLF t) as Hne.
    destruct (Seq.split CRLF t) as [|l r]; [now destruct Hne|]. clear Hne.
    cbn [Seq.push map] in *. cbn [enc flat_map]. fold (enc t) (enc l).
    destruct (enc_char_cases x Hxs)
      as [(Hlt & -> & Hto) | (Hge & b' & bs & -> & Hall)].
    + cbn [app]. rewrite SeqFacts.split_other; [now rewrite IH|].
      change (Seq.startswith bCRLF (byte_of_N x :: enc t))
        with (Byte.eqb x0d (byte_of_N x) && Seq.startswith [x0a] (enc t)).
      rewrite byte_eqb_to_N, Hto.
      rewrite (@enc_first_byte t x0a Ht) by (cbn; lia).
      exact Hx.
    + rewrite (@split_pass _ _ x0d [x0a] (b' :: bs) (enc t)).
      * change [x0d; x0a] with bCRLF. rewrite IH. apply pushes_cons.
      * eapply Forall_impl; [|exact Hall]. intros y Hy. cbn beta in Hy.
        cbn [beq BEq_byte]. rewrite byte_eqb_to_N.
        apply N.eqb_neq. cbn. lia.
Qed.

(** A line names Proxy-Authorization in its bytes as it does as text. *)
Lemma startswith_enc (pattern : str) :
  forallb (fun x => x <? 0x80) pattern = true ->
  forall l, all_scalar l = true ->
  Seq.startswith pattern (map Unicode.ascii_lower (map Byte.to_N (enc l)))
  = Seq.startswith pattern (map Unicode.ascii_lower l).
Proof.
  induction pattern as [|x p IH]; intros Hp l Hl; [reflexivity|].
  cbn [forallb] in Hp. apply andb_true_iff in Hp as [Hx Hp].
  apply N.ltb_lt in Hx.
  destruct l as [|c l]; [reflexivity|].
  cbn [all_scalar forallb] in Hl. apply andb_true_iff in Hl as [Hc Hl].
  cbn [enc flat_map]. fold (enc l).
  destruct (enc_char_cases c Hc)
    as [(Hlt & -> & Hto) | (Hge & b' & bs & -> & Hall)].
  - cbn [app map Seq.startswith]. now rewrite Hto, IH.
  - inversion Hall; subst. cbn [app map Seq.startswith].
    assert (Hal : forall y, 0x80 <= y -> beq x (Unicode.ascii_lower y) = false).
    { intros y Hy. unfold Unicode.ascii_lower. cbn [beq BEq_N].
      destruct (N.leb_spec 0x41 y); destruct (N.leb_spec y 0x5A); cbn [andb];
        apply N.eqb_neq; lia. }
    now rewrite !Hal.
Qed.

Lemma names_proxy_authorization_enc (l : str) :
  all_scalar l = true ->
  names_proxy_authorization_b (enc l) = names_proxy_authorization l.
Proof.
  intros Hl. unfold names_proxy_authorization_b, names_proxy_authorization.
  now apply startswith_enc.
Qed.


Lemma filter_enc (lines : list str) :
  Forall (fun l => all_scalar l = true) lines ->
  map enc (filter (fun l => negb (names_proxy_authorization l)) lines)
  = filter (fun l => negb (names_proxy_authorization_b l)) (map enc lines).
Proof.
  induction 1 as [|l ls Hl _ IH]; [reflexivity|].
  cbn [filter map]. rewrite (names_proxy_authorization_enc _ Hl).
  destruct (names_proxy_authorization l); cbn [negb map]; now rewrite IH.
Qed.

Lemma hd_enc (lines : list str) : hd [] (map enc lines) = enc (hd [] lines).
Proof. destruct lines; reflexivity. Qed.

Lemma tl_map {A B} (f : A -> B) (l : list A) : tl (map f l) = map f (tl l).
Proof. destruct l; reflexivity. Qed.

Section Wire.
Context {L : PyLib}.


(** The same without a credential. *)
Lemma new_request_strip_by_spec (request : bytes) (head_text : str) :
  all_scalar head_text = true ->
  encode head_text
  = Return (firstn match Seq.find bCRLFCRLF request with
                   | Some i => i
                   | None => O
                   end request) ->
  new_request (fst (split_request request)) None (snd (split_request request))
  = Return (strip_by_spec request).
Proof.
  intros Htext Hhead.
  unfold split_request, strip_by_spec. cbn [fst snd].
  set (header_end := match Seq.find bCRLFCRLF request with
                     | Some i => i
                     | None => O
                     end) in *.
  rewrite (decode_encode _ Htext Hhead).
  rewrite (encode_enc _ Hhead), (split_enc _ Htext).
  pose proof (@all_scalar_split CRLF head_text ltac:(discriminate) Htext) as Hlines.
  set (lines := Seq.split CRLF head_text) in *.
  unfold new_request. rewrite new_headers_unset by reflexivity.
  rewrite enc_encode.
  - cbn [bind]. f_equal.
    rewrite !enc_app, enc_join. cbn [map].
    rewrite hd_enc, tl_map.
    rewrite <- filter_enc by (destruct Hlines; cbn; [constructor|assumption]).
    change (enc CRLF) with bCRLF. change bCRLFCRLF with (bCRLF ++ bCRLF).
    rewrite <- !app_assoc. reflexivity.
  - apply all_scalar_no_surrogate. rewrite all_scalar_app.
    apply andb_true_iff. split; [|reflexivity].
    apply all_scalar_join; [reflexivity|].
    assert (Hhd : all_scalar (hd [] lines) = true)
      by (destruct Hlines; [reflexivity|assumption]).
    constructor; [assumption|].
    apply Forall_forall. intros l Hl. apply filter_In in Hl as [Hl _].
    assert (Htl : Forall (fun l => all_scalar l = true) (tl lines))
      by (destruct Hlines; cbn; [constructor|assumption]).
    rewrite Forall_forall in Htl. auto.
Qed.

End Wire.
End WireFacts.

(** ** The handler and the request it forwards *)

Section HandlerFacts2.
Context {L : PyLib}.

(** Whatever happens, the upstream socket is sent nothing, or the rewritten
    request first. *)
Lemma handle_client_forwards (upstream_proxy : UpstreamTarget) (e : Script) :
  sent (upstream (snd (handle_client upstream_proxy (start e)))) = []
  \/ exists request crx new_request tail,
       read_request (client_rx e) [] = (Return (Some request), crx)
       /\ forwarded_request upstream_proxy request = Return new_request
       /\ sent (upstream (snd (handle_client upstream_proxy (start e))))
          = new_request ++ tail
       /\ (fst (handle_client upstream_proxy (start e)) <> Tunnelled ->
           tail = []).
Proof.
  unfold handle_client, handle_client_try, mbind, client_read_request.
  world_simpl.
  destruct (read_request (client_rx e) []) as [[[request|]|ex] crx] eqn:Ereq;
    [|unfold client_close, ret; world_simpl; auto
     |world_simpl; auto].
  destruct (split_request request) as [lines body] eqn:Esplit.
  unfold upstream_socket, upstream_connect, lift. world_simpl.
  destruct (host upstream_proxy); [|world_simpl; auto].
  destruct (upstream_connect_ok e); [|world_simpl; auto].
  destruct (create_auth_header _ _) as [auth_header|] eqn:Eauth;
    [|world_simpl; auto].
  assert (Hfwd : forall nr, new_request lines auth_header body = Return nr ->
                 forwarded_request upstream_proxy request = Return nr).
  { intros nr Hnr. unfold forwarded_request. now rewrite Esplit, Eauth. }
  destruct (Seq.startswith _ _);
    (destruct (new_request _ _ _) as [nr|] eqn:Enr; [|world_simpl; auto]);
    specialize (Hfwd nr eq_refl);
    unfold upstream_sendall; world_simpl;
    (destruct (hd true (upstream_tx_ok e)) eqn:Htx;
     [rewrite (sendall_start _ _ _ Htx)
     |unfold sendall; cbn; destruct (upstream_tx_ok e) as [|[|] t];
      try discriminate; world_simpl; auto]).
  - unfold upstream_read_response. world_simpl.
    destruct (read_response (upstream_rx e) []) as [[response|] urx];
      [|world_simpl; right; exists request, crx, nr, [];
        rewrite app_nil_r; auto].
    unfold client_sendall. world_simpl.
    match goal with |- context [sendall ?s ?d] =>
      destruct (sendall s d) as [[[]|?] cl]
    end;
      [|world_simpl; right; exists request, crx, nr, [];
        rewrite app_nil_r; auto].
    destruct (connection_established response).
    + match goal with |- context [relay ?w] =>
        destruct (@relay_spec w) as (_ & _ & _ & [tail Htail] & _);
          [reflexivity..|]
      end.
      cbn [upstream sent] in Htail.
      world_simpl. right. exists request, crx, nr, tail.
      split; [reflexivity|]. split; [assumption|]. split; [exact Htail|].
      intros H; now destruct H.
    + unfold client_close, upstream_close, ret. world_simpl.
      right. exists request, crx, nr, []. rewrite app_nil_r. auto.
  - unfold upstream_stream_response. world_simpl.
    match goal with |- context [stream_response ?r ?c] =>
      destruct (stream_response r c) as [[[[]|?] urx] cl]
    end; unfold client_close, upstream_close, ret; world_simpl;
      right; exists request, crx, nr, []; rewrite app_nil_r; auto.
Qed.



Lemma sendall_succeeds (s : Socket) (data : bytes) :
  sends_succeed (tx_ok s) = true -> close_calls s = 0%nat ->
  exists s', sendall s data = (Return tt, s')
             /\ sent s' = sent s ++ data /\ close_calls s' = 0%nat
             /\ sends_succeed (tx_ok s') = true.
Proof.
  intros Htx Hc. unfold sendall. rewrite Hc. cbn [Nat.ltb Nat.leb].
  destruct (tx_ok s) as [|[|] t]; cbn in Htx; try discriminate;
    eexists; (split; [reflexivity|]); cbn; auto.
Qed.



End HandlerFacts2.



(** ** Cutting a string at a character *)

Module CutFacts.
Import Seq.
Section Facts.
Context {A : Type} {EqA : BEq A} {EqLawsA : BEqLaws A}.

Lemma mem_In (c : A) (s : list A) : mem c s = true <-> In c s.
Proof.
  induction s as [|x s IH]; cbn; [split; [discriminate|contradiction]|].
  rewrite orb_true_iff, IH. split; intros [H|H]; auto.
  - left. symmetry. now apply beq_eq.
  - left. apply beq_eq. now symmetry.
Qed.

Lemma mem_false (c : A) (s : list A) : ~ In c s -> mem c s = false.
Proof.
  intros H. destruct (mem c s) eqn:E; [|reflexivity].
  apply mem_In in E. contradiction.
Qed.

Lemma mem_app (c : A) (s t : list A) : mem c (s ++ t) = mem c s || mem c t.
Proof. induction s as [|x s IH]; cbn; [reflexivity|]. now rewrite IH, orb_assoc. Qed.

Lemma partition_found (c : A) (s t : list A) :
  ~ In c s -> partition c (s ++ c :: t) = (s, true, t).
Proof.
  induction s as [|x s IH]; intros Hs; cbn.
  - now rewrite SeqFacts.beq_refl.
  - rewrite SeqFacts.beq_neq by (intros ->; apply Hs; now left).
    rewrite IH; [reflexivity|]. intros H. apply Hs. now right.
Qed.

Lemma partition_none (c : A) (s : list A) :
  ~ In c s -> partition c s = (s, false, []).
Proof.
  induction s as [|x s IH]; intros Hs; cbn; [reflexivity|].
  rewrite SeqFacts.beq_neq by (intros ->; apply Hs; now left).
  rewrite IH; [reflexivity|]. intros H. apply Hs. now right.
Qed.

Lemma rpartition_none (c : A) (s : list A) :
  ~ In c s -> rpartition c s = ([], false, s).
Proof.
  induction s as [|x s IH]; intros Hs; cbn; [reflexivity|].
  rewrite IH by (intros H; apply Hs; now right).
  now rewrite SeqFacts.beq_neq by (intros ->; apply Hs; now left).
Qed.

Lemma rpartition_found (c : A) (s t : list A) :
  ~ In c t -> rpartition c (s ++ c :: t) = (s, true, t).
Proof.
  intros Ht. induction s as [|x s IH]; cbn.
  - rewrite rpartition_none by assumption. now rewrite SeqFacts.beq_refl.
  - now rewrite IH.
Qed.

Lemma find_one (c : A) (s t : list A) :
  ~ In c s -> find [c] (s ++ c :: t) = Some (List.length s).
Proof.
  induction s as [|x s IH]; intros Hs; cbn.
  - now rewrite SeqFacts.beq_refl.
  - rewrite SeqFacts.beq_neq by (intros ->; apply Hs; now left).
    cbn. rewrite IH; [reflexivity|]. intros H. apply Hs. now right.
Qed.

Lemma remove_none (c : A) (s : list A) : ~ In c s -> remove c s = s.
Proof.
  unfold remove. induction s as [|x s IH]; intros Hs; cbn; [reflexivity|].
  rewrite SeqFacts.beq_neq by (intros ->; apply Hs; now left). cbn.
  rewrite IH; [reflexivity|]. intros H. apply Hs. now right.
Qed.

Lemma lstrip_none (chars : list A) (x : A) (s : list A) :
  ~ In x chars -> lstrip chars (x :: s) = x :: s.
Proof. intros H. cbn. now rewrite mem_false by assumption. Qed.

End Facts.
End CutFacts.

(** ** The resolver on well-formed URLs *)

Module UrlFacts.

Ltac lit_compute :=
  repeat match goal with
  | |- context [u_lit ?s] =>
    let v := eval vm_compute in (u_lit s) in change (u_lit s) with v
  | |- context [UrlParse.ch ?s] =>
    let v := eval vm_compute in (UrlParse.ch s) in change (UrlParse.ch s) with v
  end.

Ltac charclass :=
  unfold is_password_char, is_user_char, is_regname_char, is_unreserved,
    is_sub_delim, Unicode.is_ascii_alpha, Unicode.is_ascii_digit,
    Unicode.is_ascii;
  lit_compute; cbn [Seq.mem beq BEq_N];
  cmp; cbn [orb andb negb]; intros; try discriminate;
  repeat split; try reflexivity; try lia.

Lemma password_char_inert (c : N) : is_password_char c = true -> inert c.
Proof. unfold inert. charclass. Qed.

Lemma user_char_password (c : N) :
  is_user_char c = true -> is_password_char c = true /\ c <> 58.
Proof. charclass. Qed.

Lemma regname_char_user (c : N) :
  is_regname_char c = true -> is_user_char c = true /\ c <> 58 /\ c <> 37.
Proof. charclass. Qed.

Lemma digit_regname (c : N) :
  Unicode.is_ascii_digit c = true -> is_regname_char c = true.
Proof. charclass. Qed.


Lemma scheme_char_regname (c : N) :
  Seq.mem c UrlParse.scheme_chars = true -> is_regname_char c = true.
Proof.
  intros H. apply CutFacts.mem_In in H.
  unfold UrlParse.scheme_chars in H.
  let v := eval vm_compute in
    (u_lit "abcdefghijklmnopqrstuvwxyzABCDEFGHIJKLMNOPQRSTUVWXYZ0123456789+-.")
  in change (u_lit "abcdefghijklmnopqrstuvwxyzABCDEFGHIJKLMNOPQRSTUVWXYZ0123456789+-.") with v in H.
  cbn [In] in H.
  repeat (destruct H as [<-|H]; [reflexivity|]). contradiction.
Qed.

Lemma forallb_Forall (f : N -> bool) (P : N -> Prop) (s : str) :
  (forall c, f c = true -> P c) -> forallb f s = true -> Forall P s.
Proof.
  intros HP Hs. rewrite forallb_forall in Hs. apply Forall_forall. auto.
Qed.

Lemma Forall_not_In (P : N -> Prop) (s : str) (c : N) :
  Forall P s -> ~ P c -> ~ In c s.
Proof. intros Hs Hc Hin. rewrite Forall_forall in Hs. auto. Qed.

Lemma inert_authority (c : N) : inert c -> authority_char c.
Proof. unfold inert, authority_char. tauto. Qed.

Section WithLib.
Context {L : PyLib}.

Lemma lower_from_ascii (s before : str) :
  forallb Unicode.is_ascii s = true ->
  Unicode.lower_from before s = map Unicode.ascii_lower s.
Proof.
  revert before. induction s as [|c s IH]; intros before Hs; [reflexivity|].
  cbn [forallb] in Hs. apply andb_true_iff in Hs as [Hc Hs].
  cbn [Unicode.lower_from map]. rewrite Hc. cbn [app]. now rewrite IH.
Qed.

Lemma lower_ascii (s : str) :
  forallb Unicode.is_ascii s = true ->
  Unicode.lower s = map Unicode.ascii_lower s.
Proof. apply lower_from_ascii. Qed.

Lemma splitnetloc_all (s : str) :
  Forall netloc_char s -> UrlParse.splitnetloc s = (s, []).
Proof.
  induction 1 as [|c s Hc _ IH]; [reflexivity|].
  cbn [UrlParse.splitnetloc]. rewrite IH.
  replace (Seq.mem c (u_lit "/?#")) with false; [reflexivity|].
  unfold netloc_char in Hc. lit_compute. cbn [Seq.mem beq BEq_N].
  cmp; reflexivity.
Qed.

Lemma authority_netloc (c : N) : authority_char c -> netloc_char c.
Proof. unfold authority_char, netloc_char. tauto. Qed.

(** The netloc of a URL with a scheme is its authority, once the brackets
    in it are checked. *)
Lemma urlparse_netloc (scheme authority : str) :
  is_scheme scheme = true -> Forall netloc_char authority ->
  UrlParse.urlparse (scheme ++ u_lit "://" ++ authority)
  = do netloc <-
      (let has_open := Seq.mem (UrlParse.ch "[") authority in
       let has_close := Seq.mem (UrlParse.ch "]") authority in
       if (has_open && negb has_close) || (has_close && negb has_open)
       then Raise ValueError
       else if has_open && has_close
            then do _ <- UrlParse.check_bracketed_netloc authority;
                 Return authority
            else Return authority);
    Return {| UrlParse.scheme := Unicode.lower scheme;
              UrlParse.netloc := netloc |}.
Proof.
  intros Hscheme Hauth.
  destruct scheme as [|c0 scheme']; [discriminate|].
  cbn [is_scheme] in Hscheme. apply andb_true_iff in Hscheme as [Halpha Hchars].
  set (scheme := c0 :: scheme') in *.
  assert (Hreg : Forall (fun c => is_regname_char c = true) scheme)
    by (eapply forallb_Forall; [apply scheme_char_regname | exact Hchars]).
  assert (Hsafe : Forall authority_char scheme).
  { eapply Forall_impl; [|exact Hreg]. intros c Hc.
    apply inert_authority, password_char_inert.
    now apply regname_char_user in Hc as [Hc%user_char_password _]. }
  assert (Hurl : Forall (fun c => 0x20 < c < 0x80)
                   (scheme ++ u_lit "://" ++ authority)).
  { rewrite !Forall_app. repeat split.
    - eapply Forall_impl; [|exact Hsafe]. unfold authority_char. tauto.
    - lit_compute. repeat constructor; lia.
    - eapply Forall_impl; [|exact Hauth]. unfold netloc_char. tauto. }
  unfold UrlParse.urlparse.
  assert (Hlstrip : Seq.lstrip UrlParse.WHATWG_C0_CONTROL_OR_SPACE
                      (scheme ++ u_lit "://" ++ authority)
                    = scheme ++ u_lit "://" ++ authority).
  { subst scheme. cbn [app]. apply CutFacts.lstrip_none.
    assert (Hc0 : 0x20 < c0) by (inversion Hurl; lia).
    assert (Hall : forallb (fun x => x <=? 0x20)
                     UrlParse.WHATWG_C0_CONTROL_OR_SPACE = true)
      by reflexivity.
    rewrite forallb_forall in Hall. intros Hin.
    apply Hall, N.leb_le in Hin. lia. }
  rewrite Hlstrip.
  rewrite (@CutFacts.remove_none _ _ _ 9 (scheme ++ u_lit "://" ++ authority))
    by (eapply Forall_not_In; [exact Hurl|cbn beta; lia]).
  rewrite (@CutFacts.remove_none _ _ _ 13 (scheme ++ u_lit "://" ++ authority))
    by (eapply Forall_not_In; [exact Hurl|cbn beta; lia]).
  rewrite (@CutFacts.remove_none _ _ _ 10 (scheme ++ u_lit "://" ++ authority))
    by (eapply Forall_not_In; [exact Hurl|cbn beta; lia]).
  assert (Hcolon : ~ In (UrlParse.ch ":") scheme).
  { eapply Forall_not_In; [exact Hreg|]. cbn beta.
    intros Hc. now apply regname_char_user in Hc as (_ & Hc & _). }
  change (u_lit "://") with (UrlParse.ch ":" :: u_lit "//").
  cbn [app]. change ((c0 :: scheme') ++ UrlParse.ch ":" :: u_lit "//" ++ authority)
    with (scheme ++ UrlParse.ch ":" :: u_lit "//" ++ authority).
  rewrite (@CutFacts.find_one _ _ _ (UrlParse.ch ":") scheme) by assumption.
  replace (firstn (List.length scheme)
             (scheme ++ UrlParse.ch ":" :: u_lit "//" ++ authority))
    with scheme by (now rewrite firstn_app, Nat.sub_diag, firstn_all, app_nil_r).
  replace (skipn (List.length scheme + 1)
             (scheme ++ UrlParse.ch ":" :: u_lit "//" ++ authority))
    with (u_lit "//" ++ authority).
  2:{ rewrite skipn_app. rewrite skipn_all2 by lia.
      replace (List.length scheme + 1 - List.length scheme)%nat with 1%nat by lia.
      reflexivity. }
  assert (Hascii0 : Unicode.is_ascii c0 = true).
  { unfold Unicode.is_ascii. apply N.ltb_lt. inversion Hurl; lia. }
  replace (match scheme ++ UrlParse.ch ":" :: u_lit "//" ++ authority with
           | [] => false
           | c1 :: _ => Unicode.is_ascii c1 && Unicode.is_ascii_alpha c1
           end) with true by (subst scheme; cbn [app]; now rewrite Hascii0, Halpha).
  rewrite Hchars. subst scheme. cbn [List.length Nat.ltb Nat.leb andb].
  change (u_lit "//") with [47; 47].
  cbn [app Seq.startswith beq BEq_N N.eqb Pos.eqb andb skipn].
  rewrite (splitnetloc_all Hauth).
  assert (Hcheck : UrlParse.checknetloc authority = Return tt).
  { unfold UrlParse.checknetloc.
    replace (forallb Unicode.is_ascii authority) with true.
    - destruct authority; reflexivity.
    - symmetry. apply forallb_forall. intros c Hc.
      rewrite Forall_forall in Hauth. specialize (Hauth c Hc).
      unfold Unicode.is_ascii. apply N.ltb_lt. unfold netloc_char in Hauth. lia. }
  cbv zeta.
  destruct (Seq.mem (UrlParse.ch "[") authority),
           (Seq.mem (UrlParse.ch "]") authority);
    cbn [andb orb negb bind]; rewrite ?Hcheck; try reflexivity.
  destruct (UrlParse.check_bracketed_netloc authority) as [[]|ex];
    cbn [bind]; rewrite ?Hcheck; reflexivity.
Qed.

(** The authority of a URL with a scheme is its netloc. *)
Lemma urlparse_authority (scheme authority : str) :
  is_scheme scheme = true -> Forall authority_char authority ->
  UrlParse.urlparse (scheme ++ u_lit "://" ++ authority)
  = Return {| UrlParse.scheme := Unicode.lower scheme;
              UrlParse.netloc := authority |}.
Proof.
  intros Hscheme Hauth.
  rewrite urlparse_netloc;
    [|assumption|eapply Forall_impl; [|exact Hauth]; apply authority_netloc].
  rewrite !CutFacts.mem_false;
    try (eapply Forall_not_In; [exact Hauth|unfold authority_char; lit_compute; lia]).
  reflexivity.
Qed.
Lemma regname_authority (s : str) :
  forallb is_regname_char s = true ->
  Forall authority_char s
  /\ ~ In (UrlParse.ch "@") s /\ ~ In (UrlParse.ch ":") s
  /\ ~ In (UrlParse.ch "[") s /\ ~ In (UrlParse.ch "%") s
  /\ forallb Unicode.is_ascii s = true.
Proof.
  intros Hs.
  assert (H : Forall (fun c => inert c /\ c <> 58 /\ c <> 37) s).
  { eapply forallb_Forall; [|exact Hs]. intros c Hc.
    apply regname_char_user in Hc as (Hu & H1 & H2).
    apply user_char_password in Hu as [Hp _].
    apply password_char_inert in Hp. auto. }
  repeat split.
  - eapply Forall_impl; [|exact H]. intros c [Hc _]. now apply inert_authority.
  - eapply Forall_not_In; [exact H|]. lit_compute. unfold inert. lia.
  - eapply Forall_not_In; [exact H|]. lit_compute. unfold inert. lia.
  - eapply Forall_not_In; [exact H|]. lit_compute. unfold inert. lia.
  - eapply Forall_not_In; [exact H|]. lit_compute. unfold inert. lia.
  - apply forallb_forall. intros c Hc. rewrite Forall_forall in H.
    destruct (H c Hc) as [Hi _]. unfold inert in Hi.
    unfold Unicode.is_ascii. apply N.ltb_lt. lia.
Qed.

Lemma digits_regname (s : str) :
  forallb Unicode.is_ascii_digit s = true -> forallb is_regname_char s = true.
Proof.
  rewrite !forallb_forall. intros H c Hc. apply digit_regname. auto.
Qed.

Lemma user_authority (s : str) :
  forallb is_user_char s = true ->
  Forall authority_char s /\ ~ In (UrlParse.ch ":") s.
Proof.
  intros Hs.
  assert (H : Forall (fun c => inert c /\ c <> 58) s).
  { eapply forallb_Forall; [|exact Hs]. intros c Hc.
    apply user_char_password in Hc as [Hp H1].
    apply password_char_inert in Hp. auto. }
  split.
  - eapply Forall_impl; [|exact H]. intros c [Hc _]. now apply inert_authority.
  - eapply Forall_not_In; [exact H|]. lit_compute. unfold inert. lia.
Qed.

Lemma password_authority (s : str) :
  forallb is_password_char s = true -> Forall authority_char s.
Proof.
  intros Hs. eapply forallb_Forall; [|exact Hs]. intros c Hc.
  now apply inert_authority, password_char_inert.
Qed.

Lemma authority_char_at : authority_char (UrlParse.ch "@").
Proof. unfold authority_char. lit_compute. lia. Qed.

Lemma authority_char_colon : authority_char (UrlParse.ch ":").
Proof. unfold authority_char. lit_compute. lia. Qed.


Lemma ip_literal_char (c : N) :
  is_ip_literal_char c = true ->
  netloc_char c /\ c <> 64 /\ c <> 91 /\ c <> 93 /\ c <> 37 /\ c < 0x80.
Proof.
  unfold is_ip_literal_char, netloc_char, Unicode.is_ascii_digit.
  lit_compute. cbn [Seq.mem beq BEq_N].
  cmp; cbn [orb andb negb]; intros; try discriminate; repeat split; lia.
Qed.

Lemma ascii_digit_is_ascii (c : N) :
  Unicode.is_ascii_digit c = true -> Unicode.is_ascii c = true.
Proof. unfold Unicode.is_ascii_digit, Unicode.is_ascii. cmp; intros; auto. Qed.

Lemma forallb_digit_ascii (p : str) :
  forallb (fun c => Unicode.is_ascii_digit c && Unicode.is_ascii c) p
  = forallb Unicode.is_ascii_digit p.
Proof.
  induction p as [|c p IH]; [reflexivity|]. cbn [forallb]. rewrite IH.
  destruct (Unicode.is_ascii_digit c) eqn:E; [|reflexivity].
  now rewrite (ascii_digit_is_ascii _ E).
Qed.

(** The resolver on a proxy URL with well-formed parts, whatever is
    written for the port. *)
Lemma parse_proxy_url_parts (scheme : str)
    (credentials : option (str * option str)) (h : host_form)
    (port : option str) :
  is_scheme scheme = true -> credentials_ok credentials = true ->
  host_form_ok h = true ->
  match port with
  | None => True
  | Some p => forallb is_regname_char p = true
  end ->
  parse_proxy_url (proxy_url scheme credentials (host_text h) port)
  = if port_ok port then Return (Some (resolved credentials h port))
    else Raise ValueError.
Proof.
  intros Hscheme Hcred Hhost Hp.
  (* the port part *)
  set (pp := match port with None => [] | Some p => u_lit ":" ++ p end).
  assert (Hpp : Forall authority_char pp /\ ~ In (UrlParse.ch "@") pp
                /\ ~ In (UrlParse.ch "[") pp /\ ~ In (UrlParse.ch "]") pp).
  { subst pp. destruct port as [p|]; [|repeat split; auto; constructor].
    destruct (regname_authority p Hp) as (Hpa & Hp_at & _ & Hp_br & _).
    change (u_lit ":") with [UrlParse.ch ":"]. cbn [app].
    repeat split.
    - constructor; [apply authority_char_colon | assumption].
    - intros [H|H]; [revert H; lit_compute; discriminate | contradiction].
    - intros [H|H]; [revert H; lit_compute; discriminate | contradiction].
    - intros [H|H]; [revert H; lit_compute; discriminate|].
      rewrite Forall_forall in Hpa. apply Hpa in H.
      unfold authority_char in H. revert H. lit_compute. lia. }
  destruct Hpp as (Hppa & Hpp_at & Hpp_br & Hpp_cl).
  (* the credentials part *)
  set (ui := match credentials with
             | None => []
             | Some (user, None) => user ++ u_lit "@"
             | Some (user, Some pass) => user ++ u_lit ":" ++ pass ++ u_lit "@"
             end).
  assert (Hui : Forall authority_char ui).
  { subst ui. destruct credentials as [[user [pass|]]|]; [| |constructor];
      cbn [credentials_ok] in Hcred; apply andb_true_iff in Hcred as [Hu Hpw];
      destruct (user_authority _ Hu) as [Hua _];
      rewrite ?Forall_app; repeat split; try assumption;
      try (now apply password_authority);
      repeat constructor; try apply authority_char_at;
      apply authority_char_colon. }
  (* the host part *)
  set (ht := host_text h).
  assert (Hht : Forall netloc_char ht /\ ~ In (UrlParse.ch "@") ht).
  { subst ht. destruct h as [name|address]; cbn [host_form_ok host_text] in *.
    - assert (Hn : forallb is_regname_char name = true)
        by (destruct name; [discriminate|exact Hhost]).
      destruct (regname_authority name Hn) as (Ha & Hat & _).
      split; [|exact Hat].
      eapply Forall_impl; [|exact Ha]. apply authority_netloc.
    - apply andb_true_iff in Hhost as [Hhost _].
      apply andb_true_iff in Hhost as [_ Hchars].
      assert (Ha : Forall (fun c => netloc_char c /\ c <> 64) address).
      { eapply forallb_Forall; [|exact Hchars]. intros c Hc.
        apply ip_literal_char in Hc. tauto. }
      change (u_lit "[") with [UrlParse.ch "["].
      change (u_lit "]") with [UrlParse.ch "]"]. cbn [app]. split.
      + constructor; [unfold netloc_char; lit_compute; lia|].
        rewrite Forall_app. split.
        * eapply Forall_impl; [|exact Ha]. now intros c [Hc _].
        * constructor; [unfold netloc_char; lit_compute; lia|constructor].
      + intros [H|H]; [revert H; lit_compute; discriminate|].
        apply in_app_or in H as [H|[H|[]]].
        * rewrite Forall_forall in Ha. apply Ha in H. cbn beta in H.
          destruct H as [_ H]. now apply H.
        * revert H. lit_compute. discriminate. }
  destruct Hht as [Hhta Hht_at].
  assert (Hauth : Forall netloc_char (ui ++ ht ++ pp)).
  { rewrite !Forall_app. repeat split; try assumption.
    - eapply Forall_impl; [|exact Hui]. apply authority_netloc.
    - eapply Forall_impl; [|exact Hppa]. apply authority_netloc. }
  assert (Hsplit_at :
    Seq.rpartition (UrlParse.ch "@") (ui ++ ht ++ pp)
    = (match credentials with
       | None => []
       | Some (user, None) => user
       | Some (user, Some pass) => user ++ u_lit ":" ++ pass
       end,
       match credentials with None => false | Some _ => true end,
       ht ++ pp)).
  { assert (Hno : ~ In (UrlParse.ch "@") (ht ++ pp))
      by (rewrite in_app_iff; tauto).
    subst ui. destruct credentials as [[user [pass|]]|].
    - change (u_lit "@") with [UrlParse.ch "@"].
      replace ((user ++ u_lit ":" ++ pass ++ [UrlParse.ch "@"]) ++ ht ++ pp)
        with ((user ++ u_lit ":" ++ pass) ++ UrlParse.ch "@" :: ht ++ pp)
        by (now rewrite <- !app_assoc).
      now apply CutFacts.rpartition_found.
    - change (u_lit "@") with [UrlParse.ch "@"].
      replace ((user ++ [UrlParse.ch "@"]) ++ ht ++ pp)
        with (user ++ UrlParse.ch "@" :: ht ++ pp)
        by (now rewrite <- !app_assoc).
      now apply CutFacts.rpartition_found.
    - cbn [app]. now apply CutFacts.rpartition_none. }
  assert (Huser : forall user pass, credentials = Some (user, Some pass) ->
            Seq.partition (UrlParse.ch ":") (user ++ u_lit ":" ++ pass)
            = (user, true, pass)).
  { intros user pass ->. cbn [credentials_ok] in Hcred.
    apply andb_true_iff in Hcred as [Hu _].
    destruct (user_authority _ Hu) as [_ Hnc].
    change (u_lit ":") with [UrlParse.ch ":"].
    now apply CutFacts.partition_found. }
  assert (Huser' : forall user, credentials = Some (user, None) ->
            Seq.partition (UrlParse.ch ":") user = (user, false, [])).
  { intros user ->. cbn [credentials_ok] in Hcred.
    apply andb_true_iff in Hcred as [Hu _].
    destruct (user_authority _ Hu) as [_ Hnc].
    now apply CutFacts.partition_none. }
  (* what the host and the port are read from *)
  assert (Hinfo :
    UrlParse.hostinfo {| UrlParse.scheme := Unicode.lower scheme;
                         UrlParse.netloc := ui ++ ht ++ pp |}
    = (host_name h, match port with
                    | None | Some [] => None
                    | Some p => Some p
                    end)
    /\ UrlParse.hostname {| UrlParse.scheme := Unicode.lower scheme;
                            UrlParse.netloc := ui ++ ht ++ pp |}
       = Some (map Unicode.ascii_lower (host_name h))
    /\ UrlParse.urlparse (scheme ++ u_lit "://" ++ ui ++ ht ++ pp)
       = Return {| UrlParse.scheme := Unicode.lower scheme;
                   UrlParse.netloc := ui ++ ht ++ pp |}).
  { assert (Hport_colon : Seq.partition (UrlParse.ch ":") pp
                          = ([], match port with None => false | Some _ => true end,
                             match port with None => [] | Some p => p end)).
    { subst pp. destruct port as [p|]; [|reflexivity].
      change (u_lit ":") with [UrlParse.ch ":"].
      apply (@CutFacts.partition_found _ _ _ (UrlParse.ch ":") [] p).
      intros []. }
    unfold UrlParse.hostname, UrlParse.hostinfo. cbn [UrlParse.netloc].
    rewrite Hsplit_at. subst ht.
    destruct h as [name|address]; cbn [host_form_ok host_text host_name] in *.
    - assert (Hn : forallb is_regname_char name = true /\ name <> [])
        by (destruct name; [discriminate|split; [exact Hhost|discriminate]]).
      destruct Hn as [Hn Hne].
      destruct (regname_authority name Hn)
        as (Hha & Hh_at & Hh_colon & Hh_br & Hh_pct & Hh_ascii).
      rewrite (@CutFacts.partition_none _ _ _ (UrlParse.ch "[") (name ++ pp))
        by (rewrite in_app_iff; tauto).
      assert (Hsplit_colon :
        Seq.partition (UrlParse.ch ":") (name ++ pp)
        = (name, match port with None => false | Some _ => true end,
           match port with None => [] | Some p => p end)).
      { subst pp. destruct port as [p|].
        - change (u_lit ":") with [UrlParse.ch ":"].
          now apply CutFacts.partition_found.
        - rewrite app_nil_r. now apply CutFacts.partition_none. }
      rewrite Hsplit_colon. cbn [fst snd].
      destruct name as [|h0 name']; [contradiction|].
      rewrite (@CutFacts.partition_none _ _ _ (UrlParse.ch "%") (h0 :: name'))
        by assumption.
      rewrite (lower_ascii _ Hh_ascii), !app_nil_r.
      repeat split.
      + destruct port as [[|c p]|]; reflexivity.
      + apply urlparse_authority; [assumption|].
        rewrite !Forall_app. repeat split; assumption.
    - apply andb_true_iff in Hhost as [Hhost Hok].
      apply andb_true_iff in Hhost as [Hne Hchars].
      assert (Ha : Forall (fun c => c <> 91 /\ c <> 93 /\ c <> 37 /\ c < 0x80)
                     address).
      { eapply forallb_Forall; [|exact Hchars]. intros c Hc.
        apply ip_literal_char in Hc. tauto. }
      assert (Ha_open : ~ In (UrlParse.ch "[") address)
        by (eapply Forall_not_In; [exact Ha|]; lit_compute; cbn beta; tauto).
      assert (Ha_close : ~ In (UrlParse.ch "]") address)
        by (eapply Forall_not_In; [exact Ha|]; lit_compute; cbn beta; tauto).
      assert (Ha_pct : ~ In (UrlParse.ch "%") address)
        by (eapply Forall_not_In; [exact Ha|]; lit_compute; cbn beta; tauto).
      assert (Ha_ascii : forallb Unicode.is_ascii address = true).
      { apply forallb_forall. intros c Hc. rewrite Forall_forall in Ha.
        apply Ha in Hc. unfold Unicode.is_ascii. apply N.ltb_lt. tauto. }
      change (u_lit "[") with [UrlParse.ch "["] in *.
      change (u_lit "]") with [UrlParse.ch "]"] in *.
      assert (Hopen : Seq.partition (UrlParse.ch "[")
                        (([UrlParse.ch "["] ++ address ++ [UrlParse.ch "]"]) ++ pp)
                      = ([], true, address ++ UrlParse.ch "]" :: pp)).
      { replace (([UrlParse.ch "["] ++ address ++ [UrlParse.ch "]"]) ++ pp)
          with ([] ++ UrlParse.ch "[" :: address ++ UrlParse.ch "]" :: pp)
          by (cbn [app]; now rewrite <- app_assoc).
        apply CutFacts.partition_found. intros []. }
      assert (Hclose : Seq.partition (UrlParse.ch "]")
                         (address ++ UrlParse.ch "]" :: pp)
                       = (address, true, pp))
        by now apply CutFacts.partition_found.
      rewrite Hopen, Hclose, Hport_colon. cbn [fst snd].
      destruct address as [|a0 address']; [discriminate|].
      rewrite (@CutFacts.partition_none _ _ _ (UrlParse.ch "%") (a0 :: address'))
        by assumption.
      rewrite (lower_ascii _ Ha_ascii), !app_nil_r.
      repeat split.
      + destruct port as [[|c p]|]; reflexivity.
      + rewrite urlparse_netloc by assumption.
        assert (Hm1 : Seq.mem (UrlParse.ch "[")
                        (ui ++ ([UrlParse.ch "["] ++ (a0 :: address')
                                ++ [UrlParse.ch "]"]) ++ pp) = true).
        { apply CutFacts.mem_In. rewrite !in_app_iff. right. left. left.
          now left. }
        assert (Hm2 : Seq.mem (UrlParse.ch "]")
                        (ui ++ ([UrlParse.ch "["] ++ (a0 :: address')
                                ++ [UrlParse.ch "]"]) ++ pp) = true).
        { apply CutFacts.mem_In. rewrite !in_app_iff. right. left. right.
          right. now left. }
        rewrite Hm1, Hm2. cbn [andb orb negb].
        unfold UrlParse.check_bracketed_netloc.
        rewrite Hsplit_at, Hopen, Hclose.
        unfold UrlParse.check_bracketed_host. rewrite Hok.
        subst pp. destruct port as [p|]; [|reflexivity].
        change (u_lit ":") with [UrlParse.ch ":"]. cbn [app].
        rewrite N.eqb_refl. reflexivity. }
  destruct Hinfo as (Hinfo & Hname & Hparse).
  unfold proxy_url. fold ui. fold pp. fold ht.
  unfold parse_proxy_url.
  destruct scheme as [|c0 scheme']; [discriminate|]. cbn [app].
  change (c0 :: scheme' ++ u_lit "://" ++ ui ++ ht ++ pp)
    with ((c0 :: scheme') ++ u_lit "://" ++ ui ++ ht ++ pp).
  rewrite Hparse. cbn [bind].
  unfold UrlParse.port. rewrite Hinfo, Hname. cbn [snd].
  unfold UrlParse.username, UrlParse.password, UrlParse.userinfo.
  cbn [UrlParse.netloc]. rewrite Hsplit_at.
  unfold resolved, port_ok.
  destruct port as [[|d0 digits']|].
  - cbn [bind forallb andb List.length].
    destruct credentials as [[user [pass|]]|]; cbn [option_map fst snd];
      rewrite ?(Huser _ _ eq_refl), ?(Huser' _ eq_refl); reflexivity.
  - rewrite forallb_digit_ascii.
    destruct (forallb Unicode.is_ascii_digit (d0 :: digits')); [|reflexivity].
    cbn [andb]. rewrite N.ltb_antisym.
    destruct (N.of_nat (List.length (d0 :: digits'))
              <=? UrlParse.INT_MAX_STR_DIGITS); [|reflexivity].
    cbn [negb andb].
    destruct (Unicode.int_of_digits (d0 :: digits') <=? 65535); [|reflexivity].
    cbn [bind].
    destruct (Unicode.int_of_digits (d0 :: digits') =? 0);
    destruct credentials as [[user [pass|]]|]; cbn [option_map fst snd];
      rewrite ?(Huser _ _ eq_refl), ?(Huser' _ eq_refl); reflexivity.
  - cbn [bind].
    destruct credentials as [[user [pass|]]|]; cbn [option_map fst snd];
      rewrite ?(Huser _ _ eq_refl), ?(Huser' _ eq_refl); reflexivity.
Qed.

End WithLib.

End UrlFacts.

(** * Lines, separators and the decoder *)

Lemma startswith_prefix_app {A} {EqA : BEq A} (p s t : list A) :
  Seq.startswith p s = true -> Seq.startswith p (s ++ t) = true.
Proof.
  revert s. induction p as [|x p IH]; intros s; [reflexivity|].
  destruct s as [|y s]; [discriminate|]. cbn.
  intros H. apply andb_true_iff in H as [-> H]. now apply IH.
Qed.

(** ** Lines: where a separator of two different elements occurs *)

Section LineFacts.
Context {A : Type} {EqA : BEq A} {EqLawsA : BEqLaws A}.
Import Seq SeqFacts.
Local Open Scope nat_scope.


Lemma contains_cons (sub : list A) (x : A) (s : list A) :
  contains sub s = true -> contains sub (x :: s) = true.
Proof.
  unfold contains. cbn [find].
  destruct (startswith sub (x :: s)); [reflexivity|].
  destruct (find sub s); [reflexivity|discriminate].
Qed.



Lemma contains_skipn (sub s : list A) (j : nat) :
  contains sub (skipn j s) = true -> contains sub s = true.
Proof.
  revert s. induction j as [|j IH]; intros s; [exact (fun H => H)|].
  destruct s as [|x s]; [exact (fun H => H)|].
  cbn [skipn]. intros H. apply contains_cons. now apply IH.
Qed.








Section TwoElements.
Variables a b : A.
Hypothesis Hab : a <> b.









End TwoElements.
End LineFacts.

(** ** The decoder and the ASCII bytes *)

Module DecodeFacts.
Import Utf8 Utf8Facts.








Lemma to_N_inj (a b : byte) : Byte.to_N a = Byte.to_N b -> a = b.
Proof.
  intros H. rewrite <- (byte_of_N_to_N a), <- (byte_of_N_to_N b).
  now rewrite H.
Qed.




Lemma decode_replace_nil (x : bytes) : decode_replace x = [] -> x = [].
Proof.
  destruct x as [|a x]; [reflexivity|].
  unfold decode_replace, scan. cbn [scan_skip].
  destruct (first_item (a :: x)). discriminate.
Qed.

End DecodeFacts.

(** ** The head that is sent, on the wire *)

Section ForwardedHead.
Local Open Scope nat_scope.












End ForwardedHead.

(** ** The characters of a credential *)

Lemma digit_in (n : N) : In (Base64.digit n) (Base64.pad :: Base64.alphabet).
Proof.
  unfold Base64.digit.
  destruct (nth_in_or_default (N.to_nat n) Base64.alphabet x3d) as [H|H].
  - now right.
  - left. now rewrite H.
Qed.

Lemma b64encode_chars (bs : bytes) :
  Forall (fun b => In b (Base64.pad :: Base64.alphabet)) (Base64.b64encode bs)
  /\ (List.length (Base64.b64encode bs)
      = 4 * ((List.length bs + 2) / 3))%nat.
Proof.
  assert (H : forall n (l : bytes), (List.length l <= n)%nat ->
    Forall (fun b => In b (Base64.pad :: Base64.alphabet)) (Base64.b64encode l)
    /\ (List.length (Base64.b64encode l)
        = 4 * ((List.length l + 2) / 3))%nat).
  { induction n as [|n IH]; intros l Hl.
    - destruct l; [split; [constructor|reflexivity] | simpl in Hl; lia].
    - destruct l as [|a [|b [|c r]]];
        [split; [constructor|reflexivity]|..];
        cbn [Base64.b64encode].
      + split; [|reflexivity].
        repeat (apply Forall_cons; [first [apply digit_in | now left]|]).
        apply Forall_nil.
      + split; [|reflexivity].
        repeat (apply Forall_cons; [first [apply digit_in | now left]|]).
        apply Forall_nil.
      + cbn [List.length] in Hl.
        destruct (IH r ltac:(lia)) as [H1 H2]. split.
        * repeat (apply Forall_cons; [apply digit_in|]). exact H1.
        * cbn [List.length]. rewrite H2.
          replace (S (S (S (List.length r))) + 2)%nat
            with (List.length r + 2 + 1 * 3)%nat by lia.
          rewrite Nat.div_add by lia. lia. }
  now apply (H (List.length bs)).
Qed.

(** ** The credential in the head that is sent *)

Lemma names_injected_header (auth_header : str) :
  names_proxy_authorization (u_lit "Proxy-Authorization: " ++ auth_header) = true.
Proof.
  unfold names_proxy_authorization. rewrite map_app.
  now apply startswith_prefix_app.
Qed.

Lemma filter_filter_negb {A} (f : A -> bool) (l : list A) :
  filter f (filter (fun x => negb (f x)) l) = [].
Proof.
  induction l as [|x l IH]; [reflexivity|]. cbn.
  destruct (f x) eqn:E; cbn; [assumption|]. now rewrite E.
Qed.

Section ForwardedCredential.
Context {L : PyLib}.
Local Open Scope nat_scope.




End ForwardedCredential.

(** * The claims *)

(** ** C1 *)


(** C1 (the code departs from it): a CONNECT is answered with status 403 and
    a reason phrase that holds the digits 200; the status code is not 200,
    and yet the handler starts the relay. *)
Theorem C1_relay_entered_on_status_403 :
  let response :=
    b_lit "HTTP/1.1 403 Forbidden by rule 2001" ++ bCRLFCRLF in
  let e := example_script example_connect [Data response] in
  status_code response = b_lit "403"
  /\ status_code response <> b_lit "200"
  /\ connection_established response = true
  /\ fst (handle_client example_target (start e)) = Tunnelled.
Proof. vm_compute. repeat split. discriminate. Qed.

(** ** C2 *)




(** ** C3 *)



(** ** C4 *)




(** ** C5 *)

(** C5 (the code departs from it): a plain request is forwarded and the
    upstream connection fails before it answers; the handler closes the
    client socket and leaves the upstream socket, which it created and
    connected, unclosed. *)
Theorem C5_upstream_left_open_on_error :
  let e := example_script example_get [RecvFails] in
  let w := snd (handle_client example_target (start e)) in
  fst (handle_client example_target (start e)) = Errored OSError
  /\ upstream_created w = true
  /\ close_calls (client w) = 1%nat
  /\ close_calls (upstream w) = 0%nat.
Proof. vm_compute. repeat split. Qed.

(** ** C6 *)

(** C6 (the code departs from it): a proxy URL without a host, such as one
    without its scheme, is no configuration error: the resolver returns a
    target whose host is [None], [main] goes on to serve with it, and every
    request then fails at [connect]. *)
Theorem C6_url_without_host_is_accepted :
  let no_host := {| host := None; port := 3128;
                    username := None; password := None |} in
  parse_proxy_url (u_lit "proxy.example.com:3128") = Return (Some no_host)
  /\ parse_proxy_url (u_lit "http://") = Return (Some no_host)
  /\ main_startup (Some (u_lit "proxy.example.com:3128")) None = Serving no_host
  /\ fst (handle_client no_host
            (start (example_script example_get [])))
     = Errored TypeError.
Proof. vm_compute. repeat split. Qed.

(** ** C7 *)



(** ** C8 *)

(** C8, as stated, fails: the host comes back in lower case, not as the URL
    has it. *)
Lemma C8_counterexample_host_lowercased :
  let url := proxy_url (u_lit "http") None (u_lit "Proxy.Example.COM")
                       (Some (u_lit "8080")) in
  parse_proxy_url url
  = Return (Some {| host := Some (u_lit "proxy.example.com"); port := 8080;
                    username := None; password := None |})
  /\ parse_proxy_url url
     <> Return (Some {| host := Some (u_lit "Proxy.Example.COM"); port := 8080;
                        username := None; password := None |}).
Proof. vm_compute. split; [reflexivity | discriminate]. Qed.

(** C8 (amended): for a URL [scheme://[user[:pass]@]host[:port]] whose
    scheme, user name and password are made of the characters RFC 3986
    gives them, whose host is a registered name without percent escapes or
    an IP literal between brackets that the runtime takes for an address,
    and whose port is at most 4300 digits of a value up to 65535, the
    resolver returns the host with its ASCII letters in lower case (an IP
    literal without its brackets), the port (3128 when the URL has none,
    when nothing follows the colon and when the value is 0), and the user
    name and the password exactly, each unset when the URL has none. *)
Theorem C8_resolver_on_well_formed_url {L : PyLib} (scheme : str)
    (credentials : option (str * option str)) (h : host_form)
    (port : option str) :
  is_scheme scheme = true -> credentials_ok credentials = true ->
  host_form_ok h = true -> port_ok port = true ->
  parse_proxy_url (proxy_url scheme credentials (host_text h) port)
  = Return (Some (resolved credentials h port)).
Proof.
  intros Hscheme Hcred Hhost Hport.
  rewrite UrlFacts.parse_proxy_url_parts; try assumption.
  - now rewrite Hport.
  - destruct port as [p|]; [|exact I]. cbn [port_ok] in Hport.
    apply andb_true_iff in Hport as [Hport _].
    apply andb_true_iff in Hport as [Hd _].
    now apply UrlFacts.digits_regname.
Qed.

Lemma C8_resolver_on_well_formed_url_witness :
  @parse_proxy_url plain_pylib
     (proxy_url (u_lit "http") (Some (u_lit "user", Some (u_lit "pa:ss")))
                (u_lit "proxy.example.com") None)
  = Return (Some {| host := Some (u_lit "proxy.example.com"); port := 3128;
                    username := Some (u_lit "user");
                    password := Some (u_lit "pa:ss") |})
  /\ @parse_proxy_url loopback_pylib
       (proxy_url (u_lit "http") None (u_lit "[::1]") (Some (u_lit "8080")))
     = Return (Some {| host := Some (u_lit "::1"); port := 8080;
                       username := None; password := None |}).
Proof.
  split.
  - exact (@C8_resolver_on_well_formed_url plain_pylib (u_lit "http")
             (Some (u_lit "user", Some (u_lit "pa:ss")))
             (RegName (u_lit "proxy.example.com")) None
             eq_refl eq_refl eq_refl eq_refl).
  - exact (@C8_resolver_on_well_formed_url loopback_pylib (u_lit "http")
             None (IpLiteral (u_lit "::1")) (Some (u_lit "8080"))
             eq_refl eq_refl eq_refl eq_refl).
Defined.

(** ** C9 *)

(** C9, as stated, fails: a user name that is present and empty gives no
    header value. *)
Lemma C9_counterexample_empty_username :
  Utf8.encode (u_lit "" ++ u_lit ":" ++ u_lit "p") = Return (b_lit ":p")
  /\ create_auth_header (Some (u_lit "")) (Some (u_lit "p")) = Return None
  /\ create_auth_header (Some (u_lit "")) (Some (u_lit "p"))
     <> Return (Some (u_lit "Basic "
                      ++ map Byte.to_N (Base64.b64encode (b_lit ":p")))).
Proof. vm_compute. repeat split. discriminate. Qed.

(** A lone surrogate in a credential makes the encoder raise. *)
Lemma create_auth_header_surrogate :
  create_auth_header (Some [0xDCFF]) (Some (u_lit "p"))
  = Raise UnicodeEncodeError.
Proof. reflexivity. Qed.

(** C9 (amended): the encoder gives no value when the user name or the
    password is unset; for a user name and a password that are not empty
    and hold no lone surrogate it gives "Basic " and the base64 of the
    UTF-8 bytes of "user:password". *)
Theorem C9_credential_encoder (username password : option str) :
  (username = None \/ password = None ->
   create_auth_header username password = Return None)
  /\ (forall u p,
        username = Some u -> password = Some p -> u <> [] -> p <> [] ->
        Utf8.no_surrogate (u ++ p) = true ->
        exists raw,
          Utf8.encode (u ++ u_lit ":" ++ p) = Return raw
          /\ create_auth_header username password
             = Return (Some (u_lit "Basic "
                             ++ map Byte.to_N (Base64.b64encode raw)))).
Proof.
  split.
  - intros [-> | ->]; apply create_auth_header_falsy; [now left | now right].
  - intros u p -> -> Hu Hp Hs.
    destruct (@Utf8Facts.encode_total (u ++ u_lit ":" ++ p)) as [raw Hraw].
    + unfold Utf8.no_surrogate in *. rewrite !forallb_app in *.
      apply andb_true_iff in Hs as [-> ->]. reflexivity.
    + exists raw. split; [exact Hraw|].
      now apply create_auth_header_present.
Qed.

Lemma C9_credential_encoder_witness :
  create_auth_header None (Some (u_lit "pass")) = Return None
  /\ exists raw,
       Utf8.encode (u_lit "user" ++ u_lit ":" ++ u_lit "pass") = Return raw
       /\ create_auth_header (Some (u_lit "user")) (Some (u_lit "pass"))
          = Return (Some (u_lit "Basic "
                          ++ map Byte.to_N (Base64.b64encode raw))).
Proof.
  split.
  - apply (proj1 (C9_credential_encoder None (Some (u_lit "pass")))).
    now left.
  - apply (proj2 (C9_credential_encoder (Some (u_lit "user"))
                                        (Some (u_lit "pass")))
             (u_lit "user") (u_lit "pass") eq_refl eq_refl);
      [discriminate | discriminate | reflexivity].
Defined.

(** ** C10 *)

(** C10: with a user name or a password that is the empty string the
    encoder gives no value, and then whatever the handler sends upstream
    holds no header that names Proxy-Authorization. *)
Theorem C10_empty_credential_injects_nothing {L : PyLib}
    (upstream_proxy : UpstreamTarget) (e : Script) :
  username upstream_proxy = Some [] \/ password upstream_proxy = Some [] ->
  create_auth_header (username upstream_proxy) (password upstream_proxy)
  = Return None
  /\ let w := snd (handle_client upstream_proxy (start e)) in
     (sent (upstream w) = []
      \/ exists request crx head tail,
           read_request (client_rx e) [] = (Return (Some request), crx)
           /\ Utf8.encode
                (Seq.join CRLF (new_headers (fst (split_request request)) None)
                 ++ CRLF ++ CRLF) = Return head
           /\ sent (upstream w) = head ++ snd (split_request request) ++ tail
           /\ filter names_proxy_authorization
                (header_lines (new_headers (fst (split_request request)) None))
              = []).
Proof.
  intros Hempty.
  assert (Hnone : create_auth_header (username upstream_proxy)
                                     (password upstream_proxy) = Return None).
  { apply create_auth_header_falsy.
    destruct Hempty as [-> | ->]; [now left | now right]. }
  split; [exact Hnone|]. intros w. subst w.
  destruct (handle_client_forwards upstream_proxy e)
    as [Hsent | (request & crx & nr & tail & Hreq & Hfwd & Hsent & _)];
    [now left | right].
  destruct (forwarded_request_total upstream_proxy request Hnone)
    as (head & Hhead & Hfwd').
  rewrite Hfwd' in Hfwd. injection Hfwd as <-.
  exists request, crx, head, tail.
  split; [exact Hreq|]. split; [exact Hhead|].
  split; [now rewrite Hsent, <- app_assoc|].
  rewrite new_headers_unset by reflexivity. unfold header_lines. cbn [tl].
  apply filter_filter_negb.
Qed.

Lemma C10_empty_credential_injects_nothing_witness :
  let upstream_proxy := {| host := Some (u_lit "proxy.example.com");
                           port := 3128; username := Some (u_lit "user");
                           password := Some [] |} in
  create_auth_header (username upstream_proxy) (password upstream_proxy)
  = Return None.
Proof.
  intros upstream_proxy.
  refine (proj1 (@C10_empty_credential_injects_nothing plain_pylib
                   upstream_proxy (example_script example_get []) _)).
  now right.
Defined.

(** * Further properties *)

(** ** [forward_data] and the relay: order *)

Section OrderFacts.
Local Open Scope nat_scope.

Lemma recv_rx (s : Socket) :
  match recv s with
  | (Return [], s') => sent s' = sent s
  | (Return data, s') =>
    sent s' = sent s /\ delivered (rx s) = data ++ delivered (rx s')
  | (Raise _, s') => sent s' = sent s
  end.
Proof.
  unfold recv. destruct (0 <? close_calls s); [reflexivity|].
  destruct (rx s) as [|[[|b chunk]|] r]; cbn; auto.
Qed.


Lemma sendall_sent (s : Socket) (data : bytes) :
  rx (snd (sendall s data)) = rx s
  /\ match fst (sendall s data) with
     | Return _ => sent (snd (sendall s data)) = sent s ++ data
     | Raise _ => sent (snd (sendall s data)) = sent s
     end.
Proof.
  unfold sendall. destruct (0 <? close_calls s); [cbn; auto|].
  destruct (tx_ok s) as [|[|] t]; cbn; auto.
Qed.

(** A call of the thread keeps its bytes in order. *)
Lemma forward_step_in_order (d : direction) (total : bytes) (p : pc)
    (w : World) :
  in_order d total p w ->
  in_order d total (fst (forward_step d p w)) (snd (forward_step d p w)).
Proof.
  intros [lost H]. unfold in_order.
  destruct d; destruct p as [|data| | |];
    cbn [forward_step source dest still_to_send] in *.
  all: try (exists lost; cbn; exact H).
  all: try match goal with
    | |- context [recv ?s] =>
      pose proof (recv_rx s) as Hr;
      destruct (recv s) as [[[|b0 d0]|ex] s']; cbn in *;
      [eexists; rewrite H; reflexivity
      |destruct Hr as [_ Hr]; exists lost; rewrite H, Hr; reflexivity
      |eexists; rewrite H; reflexivity]
    | |- context [sendall ?s ?data] =>
      pose proof (sendall_sent s data) as [Hrx Hs];
      destruct (sendall s data) as [[[]|ex] s']; cbn in *;
      [exists lost; rewrite H, Hs; now rewrite <- ?app_assoc
      |eexists; rewrite H, Hs; reflexivity]
    end.
  all: eexists; cbn; rewrite H; reflexivity.
Qed.

(** A call of the other thread changes nothing of it. *)
Lemma forward_step_other (d : direction) (total : bytes) (p q : pc)
    (w : World) :
  in_order d total p w ->
  in_order d total p (snd (forward_step (opposite d) q w)).
Proof.
  intros [lost H]. exists lost. rewrite H.
  destruct d; destruct q as [|data| | |]; destruct p;
    cbn [forward_step source dest still_to_send opposite snd]; try reflexivity.
  all: try match goal with
    | |- context [recv ?s] =>
      pose proof (recv_keeps s) as (_ & Hs & _);
      destruct (recv s) as [[[|b0 d0]|ex] s']; cbn in *; now rewrite ?Hs
    | |- context [sendall ?s ?data] =>
      pose proof (sendall_sent s data) as [Hrx _];
      destruct (sendall s data) as [[[]|ex] s']; cbn in *; now rewrite ?Hrx
    end.
Qed.

Lemma pop_schedule_in_order (d : direction) (total : bytes) (p : pc)
    (w : World) :
  in_order d total p w -> in_order d total p (snd (pop_schedule w)).
Proof.
  unfold pop_schedule. destruct (schedule w); cbn [snd]; [auto|].
  destruct d; exact (fun H => H).
Qed.

(** However the threads are scheduled and wherever they stand, each one
    keeps its bytes in order. *)
Lemma run_threads_in_order (total1 total2 : bytes) (fuel : nat) :
  forall (t1 t2 : pc) (w : World),
  in_order ClientToUpstream total1 t1 w ->
  in_order UpstreamToClient total2 t2 w ->
  let '(t1', t2', w') := run_threads fuel t1 t2 w in
  in_order ClientToUpstream total1 t1' w'
  /\ in_order UpstreamToClient total2 t2' w'.
Proof.
  induction fuel as [|fuel IH]; intros t1 t2 w H1 H2; cbn [run_threads];
    [auto|].
  destruct (is_finished t1 && is_finished t2); [auto|].
  apply pop_schedule_in_order in H1, H2.
  destruct (pop_schedule w) as [turn w0]. cbn [snd] in *.
  destruct ((turn && negb (is_finished t1)) || is_finished t2).
  - pose proof (forward_step_in_order H1) as H1'.
    pose proof (@forward_step_other UpstreamToClient total2 t2 t1 w0 H2) as H2'.
    cbn [opposite] in H2'.
    destruct (forward_step ClientToUpstream t1 w0) as [t1' w'].
    now apply IH.
  - pose proof (forward_step_in_order H2) as H2'.
    pose proof (@forward_step_other ClientToUpstream total1 t1 t2 w0 H1) as H1'.
    cbn [opposite] in H1'.
    destruct (forward_step UpstreamToClient t2 w0) as [t2' w'].
    now apply IH.
Qed.

Lemma in_order_prefix (d : direction) (total : bytes) (p : pc) (w : World) :
  in_order d total p w -> exists rest, total = sent (dest d w) ++ rest.
Proof. intros [lost H]. eexists. exact H. Qed.

Lemma in_order_start (d : direction) (w : World) :
  in_order d (sent (dest d w) ++ delivered (rx (source d w))) AtRecv w.
Proof. exists []. cbn. now rewrite app_nil_r. Qed.

(** The relay keeps the order of the bytes in each direction and invents
    none: what a socket was sent at the end begins what it had been sent
    followed by what the other socket delivers. *)
Lemma relay_in_order (w : World) :
  (exists rest, sent (upstream w) ++ delivered (rx (client w))
                = sent (upstream (relay w)) ++ rest)
  /\ (exists rest, sent (client w) ++ delivered (rx (upstream w))
                   = sent (client (relay w)) ++ rest).
Proof.
  unfold relay.
  pose proof (@run_threads_in_order _ _
    (calls_left ClientToUpstream AtRecv w + calls_left UpstreamToClient AtRecv w)
    AtRecv AtRecv w (in_order_start ClientToUpstream w)
    (in_order_start UpstreamToClient w)) as H.
  destruct (run_threads _ _ _ _) as [[t1 t2] w'].
  destruct H as [H1 H2]. split.
  - exact (in_order_prefix H1).
  - exact (in_order_prefix H2).
Qed.

(** X3: however the two relay threads are scheduled and whatever fails, the
    relay keeps the order of the bytes in each direction and invents none:
    what the upstream socket has been sent at the end is a beginning of what
    it had been sent before followed by what the client delivers, and the
    same for the client socket and what the upstream delivers. *)
Theorem X3_relay_keeps_order (w : World) :
  (exists rest, sent (upstream w) ++ delivered (rx (client w))
                = sent (upstream (relay w)) ++ rest)
  /\ (exists rest, sent (client w) ++ delivered (rx (upstream w))
                   = sent (client (relay w)) ++ rest).
Proof. exact (relay_in_order w). Qed.

End OrderFacts.

Section PipelineFacts.
Context {L : PyLib}.
Local Open Scope nat_scope.


Lemma read_response_delivered (rx0 : list recv_result) :
  forall (acc response : bytes) (rx' : list recv_result),
  well_scripted rx0 = true ->
  read_response rx0 acc = (Return response, rx') ->
  acc ++ delivered rx0 = response ++ delivered rx'.
Proof.
  induction rx0 as [|[[|b chunk]|] r IH]; intros acc response rx' Hw;
    cbn [read_response]; destruct (Seq.contains bCRLFCRLF acc);
    try discriminate; try (now intros [= <- <-]).
  intros H. apply IH in H; [|exact Hw]. rewrite <- H. cbn [delivered].
  now rewrite <- app_assoc.
Qed.

Lemma stream_response_in_order (rx0 : list recv_result) :
  forall c : Socket,
  exists rest,
    sent c ++ delivered rx0 = sent (snd (stream_response rx0 c)) ++ rest.
Proof.
  induction rx0 as [|[[|b chunk]|] r IH]; intros c;
    cbn [stream_response snd delivered]; try (now exists []).
  pose proof (sendall_sent c (b :: chunk)) as [_ Hs].
  destruct (sendall c (b :: chunk)) as [[[]|ex] c']; cbn [fst snd] in *.
  - destruct (IH c') as [rest Hrest]. exists rest.
    rewrite <- Hrest, Hs. now rewrite <- app_assoc.
  - rewrite Hs. eexists. reflexivity.
Qed.

Lemma prefix_nil {A} (l : list A) : exists rest, l = [] ++ rest.
Proof. now exists l. Qed.

(** X10: whatever the request, the schedule of the relay threads and the
    failures, the client is sent nothing but bytes that came from the
    upstream, in their order and from the first one on: what the client
    socket has been sent is a beginning of what the upstream delivers.  (The
    script of the upstream marks the end of its stream by its own end.) *)
Theorem X10_client_sent_in_order (upstream_proxy : UpstreamTarget)
    (e : Script) :
  well_scripted (upstream_rx e) = true ->
  exists rest,
    delivered (upstream_rx e)
    = sent (client (snd (handle_client upstream_proxy (start e)))) ++ rest.
Proof.
  intros Hw.
  unfold handle_client, handle_client_try, mbind, client_read_request.
  world_simpl.
  destruct (read_request (client_rx e) []) as [[[request|]|ex] crx];
    [|unfold client_close, ret; world_simpl; apply prefix_nil
     |world_simpl; apply prefix_nil].
  destruct (split_request request) as [lines body].
  unfold upstream_socket, upstream_connect, lift. world_simpl.
  destruct (host upstream_proxy); [|world_simpl; apply prefix_nil].
  destruct (upstream_connect_ok e); [|world_simpl; apply prefix_nil].
  destruct (create_auth_header _ _) as [auth_header|];
    [|world_simpl; apply prefix_nil].
  destruct (Seq.startswith _ _);
    (destruct (new_request _ _ _) as [nr|]; [|world_simpl; apply prefix_nil]);
    unfold upstream_sendall; world_simpl;
    match goal with |- context [sendall ?s ?d] =>
      pose proof (sendall_sent s d) as (Hrx & _);
      destruct (sendall s d) as [[[]|?] up]; cbn [snd rx] in Hrx;
      [|world_simpl; apply prefix_nil]
    end.
  - unfold upstream_read_response. world_simpl. rewrite Hrx.
    destruct (read_response (upstream_rx e) []) as [[response|] urx] eqn:Eresp;
      [|world_simpl; apply prefix_nil].
    apply read_response_delivered in Eresp; [|exact Hw].
    cbn [app] in Eresp. rewrite Eresp.
    unfold client_sendall. world_simpl.
    match goal with |- context [sendall ?s ?d] =>
      pose proof (sendall_sent s d) as (Hcrx & Hs);
      destruct (sendall s d) as [[[]|?] cl]; cbn [fst snd rx sent] in Hcrx, Hs;
      [|world_simpl; rewrite Hs; apply prefix_nil]
    end.
    cbn [app] in Hs.
    destruct (connection_established response).
    + match goal with |- context [relay ?w] =>
        destruct (relay_in_order w) as [_ [rest Hrest]]
      end.
      cbn [client upstream sent rx set_upstream set_client set_rx] in Hrest.
      cbn [snd]. rewrite Hs in Hrest. now exists rest.
    + unfold client_close, upstream_close, ret. world_simpl.
      rewrite Hs. eexists. reflexivity.
  - unfold upstream_stream_response. world_simpl. rewrite Hrx.
    match goal with |- context [stream_response ?r ?c] =>
      destruct (stream_response_in_order r c) as [rest Hrest];
      destruct (stream_response r c) as [[[[]|?] urx] cl];
      cbn [snd sent app] in Hrest
    end; unfold client_close, upstream_close, ret; world_simpl;
      now exists rest.
Qed.


End PipelineFacts.

Lemma X10_client_sent_in_order_witness :
  let e := example_script example_get
             [Data (b_lit "HTTP/1.1 200 OK" ++ bCRLFCRLF); Data (b_lit "hi")] in
  exists rest,
    delivered (upstream_rx e)
    = sent (client (snd (handle_client example_target (start e)))) ++ rest.
Proof.
  intros e.
  exact (@X10_client_sent_in_order plain_pylib example_target e eq_refl).
Defined.

(** ** [forward_data] by itself *)

Section AloneFacts.
Local Open Scope nat_scope.

Lemma forward_step_alone (d : direction) (p : pc) (w : World) :
  close_calls (source d (snd (forward_step d p w)))
  + source_closes_due (fst (forward_step d p w))
  = close_calls (source d w) + source_closes_due p
  /\ close_calls (dest d (snd (forward_step d p w)))
     + dest_closes_due (fst (forward_step d p w))
     = close_calls (dest d w) + dest_closes_due p
  /\ (is_finished p = false ->
      calls_left d (fst (forward_step d p w)) (snd (forward_step d p w))
      < calls_left d p w).
Proof.
  destruct d; destruct p as [|data| | |]; cbn [forward_step source dest].
  all: try (cbn; repeat split; solve [lia | discriminate]).
  all: match goal with
    | |- context [recv ?s] =>
      pose proof (recv_keeps s) as (Hc & _ & Hl);
      pose proof (@recv_data s) as Hd;
      destruct (recv s) as [[[|b0 d0]|ex] s']; cbn in *;
      try specialize (Hd _ _ eq_refl ltac:(discriminate));
      repeat split; intros; lia
    | |- context [sendall ?s ?data] =>
      pose proof (sendall_keeps s data) as (Hc & Hrx & _);
      destruct (sendall s data) as [[[]|ex] s']; cbn in *;
      rewrite ?Hrx; repeat split; intros; lia
    end.
Qed.

Lemma run_forward_finishes (d : direction) (fuel : nat) :
  forall (p : pc) (w : World),
  calls_left d p w <= fuel ->
  fst (run_forward fuel d p w) = Finished
  /\ close_calls (source d (snd (run_forward fuel d p w)))
     = close_calls (source d w) + source_closes_due p
  /\ close_calls (dest d (snd (run_forward fuel d p w)))
     = close_calls (dest d w) + dest_closes_due p.
Proof.
  induction fuel as [|fuel IH]; intros p w Hfuel.
  - assert (p = Finished) by (eapply is_finished_calls_left with (w := w) (d := d); lia).
    subst. cbn. repeat split; lia.
  - cbn [run_forward].
    destruct (forward_step_alone d p w) as (Hs & Hd & Hlt).
    destruct (forward_step d p w) as [p' w'] eqn:E. cbn [fst snd] in *.
    destruct (is_finished p) eqn:Ef.
    + apply is_finished_true in Ef. subst p. cbn in E.
      injection E as <- <-. apply IH. cbn. lia.
    + specialize (Hlt eq_refl).
      destruct (IH p' w' ltac:(lia)) as (H1 & H2 & H3).
      repeat split; [assumption|lia..].
Qed.

Lemma run_forward_in_order (d : direction) (total : bytes) (fuel : nat) :
  forall (p : pc) (w : World),
  in_order d total p w ->
  in_order d total (fst (run_forward fuel d p w)) (snd (run_forward fuel d p w)).
Proof.
  induction fuel as [|fuel IH]; intros p w H; cbn [run_forward]; [exact H|].
  apply forward_step_in_order in H.
  destruct (forward_step d p w) as [p' w']. now apply IH.
Qed.

(** X1: on a source whose stream ends or fails (what a script describes),
    [forward_data], whatever [recv] or [sendall] raised in it, has called
    [close] once on each of its two sockets; and what it has sent to its
    destination is a beginning of what its source delivers, in that order,
    after what the destination had been sent before. *)
Theorem X1_forward_data_closes_both (d : direction) (w : World) :
  close_calls (source d (snd (forward_data d w)))
  = S (close_calls (source d w))
  /\ close_calls (dest d (snd (forward_data d w)))
     = S (close_calls (dest d w))
  /\ exists rest,
       sent (dest d w) ++ delivered (rx (source d w))
       = sent (dest d (snd (forward_data d w))) ++ rest.
Proof.
  unfold forward_data.
  destruct (@run_forward_finishes d _ AtRecv w (le_n _)) as (_ & H2 & H3).
  cbn [source_closes_due dest_closes_due] in *.
  repeat split; [lia..|].
  exact (in_order_prefix (run_forward_in_order _ (in_order_start d w))).
Qed.

Lemma run_forward_closing (d : direction) (fuel : nat) :
  forall (p : pc) (w : World),
  still_to_send d p w = [] -> (p <> AtRecv) -> (forall data, p <> AtSend data) ->
  sent (dest d (snd (run_forward fuel d p w))) = sent (dest d w).
Proof.
  induction fuel as [|fuel IH]; intros p w H Hr Hs; cbn [run_forward];
    [reflexivity|].
  destruct p as [|data| | |]; try (now destruct Hr); try (now destruct (Hs data));
    cbn [forward_step]; rewrite IH; try reflexivity; try discriminate;
    destruct d; reflexivity.
Qed.

(** The thread reads its source to the end when nothing fails. *)
Lemma run_forward_delivers (d : direction) (fuel : nat) :
  forall (p : pc) (w : World),
  calls_left d p w <= fuel ->
  (p = AtRecv \/ exists data, p = AtSend data) ->
  close_calls (source d w) = 0 -> close_calls (dest d w) = 0 ->
  ends_cleanly (rx (source d w)) = true ->
  sends_succeed (tx_ok (dest d w)) = true ->
  sent (dest d (snd (run_forward fuel d p w)))
  = sent (dest d w) ++ still_to_send d p w.
Proof.
  induction fuel as [|fuel IH]; intros p w Hfuel Hp Hcs Hcd Hrx Htx.
  - destruct Hp as [->|[data ->]]; cbn in Hfuel; lia.
  - cbn [run_forward].
    destruct (forward_step_alone d p w) as (_ & _ & Hlt).
    destruct Hp as [->|[data ->]]; specialize (Hlt eq_refl).
    + cbn [forward_step still_to_send] in *.
      unfold recv in *. rewrite Hcs in *. cbn [Nat.ltb Nat.leb] in *.
      destruct (rx (source d w)) as [|[[|b chunk]|] r] eqn:Er;
        cbn [ends_cleanly delivered fst snd] in *; try discriminate.
      * rewrite run_forward_closing; try discriminate; try reflexivity.
        rewrite app_nil_r. destruct d; reflexivity.
      * rewrite run_forward_closing; try discriminate; try reflexivity.
        rewrite app_nil_r. destruct d; reflexivity.
      * rewrite IH; try lia; try (right; eexists; reflexivity).
        all: destruct d; cbn [source dest set_source] in *; world_simpl;
          try assumption; reflexivity.
    + cbn [forward_step still_to_send] in *.
      destruct (sendall_succeeds (dest d w) data Htx Hcd)
        as (s' & Es & Hs & Hc & Ht).
      pose proof (sendall_keeps (dest d w) data) as (_ & Hrx' & _).
      rewrite Es in *. cbn [fst snd] in *.
      rewrite IH; try lia; try (now left).
      all: destruct d; cbn [source dest set_dest still_to_send] in *;
        world_simpl; try assumption.
      all: now rewrite Hs, <- app_assoc.
Qed.

(** X2: run by itself on open sockets, with a source that ends by being
    closed and a destination that takes what it is sent, [forward_data]
    sends all that the source delivers, in its order. *)
Theorem X2_forward_data_delivers (d : direction) (w : World) :
  close_calls (source d w) = 0 -> close_calls (dest d w) = 0 ->
  ends_cleanly (rx (source d w)) = true ->
  sends_succeed (tx_ok (dest d w)) = true ->
  sent (dest d (snd (forward_data d w)))
  = sent (dest d w) ++ delivered (rx (source d w)).
Proof.
  intros. unfold forward_data.
  rewrite run_forward_delivers; auto.
Qed.

Lemma X2_forward_data_delivers_witness :
  let e := {| client_rx := [Data (b_lit "ab"); Data (b_lit "c")];
              client_tx_ok := []; upstream_rx := []; upstream_tx_ok := [true];
              upstream_connect_ok := true; thread_schedule := [] |} in
  sent (upstream (snd (forward_data ClientToUpstream (start e)))) = b_lit "abc".
Proof.
  intros e.
  exact (@X2_forward_data_delivers ClientToUpstream (start e)
           eq_refl eq_refl eq_refl eq_refl).
Defined.

End AloneFacts.

(** ** The read loop of the request *)

Section ReadLoopFacts.
Context {L : PyLib}.
Local Open Scope nat_scope.

Lemma contains_prefix {A} {EqA : BEq A} {EqLawsA : BEqLaws A}
    (sub s t : list A) :
  Seq.contains sub s = true -> Seq.contains sub (s ++ t) = true.
Proof.
  intros H. apply SeqFacts.contains_find in H as [i Hi].
  apply SeqFacts.find_Some in Hi as (u & Hs & _).
  rewrite Hs, <- !app_assoc. apply SeqFacts.contains_app.
Qed.

(** The loop returns a request as soon as the stream has delivered the
    terminator, and only then. *)
Lemma read_request_complete (rx0 : list recv_result) :
  forall acc : bytes,
  Seq.contains bCRLFCRLF (acc ++ delivered rx0) = true ->
  exists request rx',
    read_request rx0 acc = (Return (Some request), rx')
    /\ Seq.contains bCRLFCRLF request = true.
Proof.
  induction rx0 as [|[[|b chunk]|] r IH]; intros acc;
    cbn [read_request delivered]; rewrite ?app_nil_r;
    destruct (Seq.contains bCRLFCRLF acc) eqn:E;
    try (intros _; exists acc; eexists; split; [reflexivity|exact E]);
    try (intros H; rewrite H in E; discriminate).
  rewrite app_assoc. apply IH.
Qed.

Lemma read_request_incomplete (rx0 : list recv_result) :
  forall acc : bytes,
  Seq.contains bCRLFCRLF (acc ++ delivered rx0) = false ->
  exists rx',
    read_request rx0 acc
    = (if ends_cleanly rx0 then Return None else Raise OSError, rx').
Proof.
  induction rx0 as [|[[|b chunk]|] r IH]; intros acc Hc;
    cbn [read_request delivered ends_cleanly] in *;
    (destruct (Seq.contains bCRLFCRLF acc) eqn:E;
     [apply contains_prefix with (t := delivered ((Data (b :: chunk)) :: r)) in E
      || apply contains_prefix with (t := @nil byte) in E|]).
  all: try (eexists; reflexivity).
  all: try (rewrite ?app_nil_r in *; congruence).
  - cbn [delivered] in E. congruence.
  - apply IH. now rewrite <- app_assoc.
Qed.

(** X6: when the client does not deliver the terminator of a head (it
    closes first, or reading from it fails), no upstream socket is created
    and nothing is sent to anyone; the client socket is closed once; the
    call ends silently after a close and with a printed error after a
    failure. *)
Theorem X6_incomplete_request_not_forwarded (upstream_proxy : UpstreamTarget)
    (e : Script) :
  Seq.contains bCRLFCRLF (delivered (client_rx e)) = false ->
  exists w,
    handle_client upstream_proxy (start e)
    = (if ends_cleanly (client_rx e) then ClientGone else Errored OSError, w)
    /\ upstream_created w = false
    /\ sent (upstream w) = [] /\ sent (client w) = []
    /\ close_calls (client w) = 1 /\ close_calls (upstream w) = 0
    /\ reported w = if ends_cleanly (client_rx e) then [] else [OSError].
Proof.
  intros H. destruct (read_request_incomplete _ [] H) as [rx' Hr].
  unfold handle_client, handle_client_try, mbind, client_read_request.
  world_simpl. rewrite Hr.
  destruct (ends_cleanly (client_rx e)).
  - unfold client_close, ret. world_simpl. eexists. split; [reflexivity|].
    cbn. auto 10.
  - world_simpl. eexists. split; [reflexivity|]. cbn. auto 10.
Qed.


(** X8: the socket to the upstream is created exactly when the client has
    delivered the terminator of a head, whatever else happens. *)
Theorem X8_dialled_iff_complete_head (upstream_proxy : UpstreamTarget)
    (e : Script) :
  upstream_created (snd (handle_client upstream_proxy (start e)))
  = Seq.contains bCRLFCRLF (delivered (client_rx e)).
Proof.
  destruct (Seq.contains bCRLFCRLF (delivered (client_rx e))) eqn:H.
  - destruct (read_request_complete _ [] H) as (request & crx & Hr & _).
    unfold handle_client, handle_client_try, mbind, client_read_request.
    world_simpl. rewrite Hr.
    destruct (split_request request) as [lines body].
    unfold upstream_socket, upstream_connect, lift. world_simpl.
    destruct (host upstream_proxy); [|reflexivity].
    destruct (upstream_connect_ok e); [|reflexivity].
    destruct (create_auth_header _ _) as [auth_header|]; [|reflexivity].
    destruct (Seq.startswith _ _);
      (destruct (new_request _ _ _) as [nr|]; [|reflexivity]);
      unfold upstream_sendall; world_simpl;
      match goal with |- context [sendall ?s ?d] =>
        destruct (sendall s d) as [[[]|?] up]; [|reflexivity]
      end.
    + unfold upstream_read_response. world_simpl.
      destruct (read_response (rx up) []) as [[response|] urx];
        [|reflexivity].
      unfold client_sendall. world_simpl.
      match goal with |- context [sendall ?s ?d] =>
        destruct (sendall s d) as [[[]|?] cl]; [|reflexivity]
      end.
      destruct (connection_established response); [|reflexivity].
      match goal with |- context [relay ?w] =>
        destruct (@relay_spec w) as (_ & _ & _ & _ & _ & Hu); [reflexivity..|]
      end.
      exact Hu.
    + unfold upstream_stream_response. world_simpl.
      match goal with |- context [stream_response ?r ?c] =>
        destruct (stream_response r c) as [[[[]|?] urx] cl]
      end; reflexivity.
  - destruct (read_request_incomplete _ [] H) as [rx' Hr].
    unfold handle_client, handle_client_try, mbind, client_read_request.
    world_simpl. rewrite Hr.
    destruct (ends_cleanly (client_rx e)); reflexivity.
Qed.

(** X5: a call of [handle_client] prints an error exactly when it ends in
    its error handler, and then this one error, once; the exceptions of the
    relay threads are not printed. *)
Theorem X5_errors_reported_once (upstream_proxy : UpstreamTarget)
    (e : Script) :
  reported (snd (handle_client upstream_proxy (start e)))
  = match fst (handle_client upstream_proxy (start e)) with
    | Errored ex => [ex]
    | _ => []
    end.
Proof.
  unfold handle_client, handle_client_try, mbind, client_read_request.
  world_simpl.
  destruct (read_request (client_rx e) []) as [[[request|]|ex] crx];
    [|reflexivity..].
  destruct (split_request request) as [lines body].
  unfold upstream_socket, upstream_connect, lift. world_simpl.
  destruct (host upstream_proxy); [|reflexivity].
  destruct (upstream_connect_ok e); [|reflexivity].
  destruct (create_auth_header _ _) as [auth_header|]; [|reflexivity].
  destruct (Seq.startswith _ _);
    (destruct (new_request _ _ _) as [nr|]; [|reflexivity]);
    unfold upstream_sendall; world_simpl;
    match goal with |- context [sendall ?s ?d] =>
      destruct (sendall s d) as [[[]|?] up]; [|reflexivity]
    end.
  + unfold upstream_read_response. world_simpl.
    destruct (read_response (rx up) []) as [[response|] urx];
      [|reflexivity].
    unfold client_sendall. world_simpl.
    match goal with |- context [sendall ?s ?d] =>
      destruct (sendall s d) as [[[]|?] cl]; [|reflexivity]
    end.
    destruct (connection_established response); [|reflexivity].
    match goal with |- context [relay ?w] =>
      destruct (@relay_spec w) as (_ & _ & _ & _ & Hr & _); [reflexivity..|]
    end.
    exact Hr.
  + unfold upstream_stream_response. world_simpl.
    match goal with |- context [stream_response ?r ?c] =>
      destruct (stream_response r c) as [[[[]|?] urx] cl]
    end; reflexivity.
Qed.

(** X4: how often [close] is called on each socket, by the way the call
    ends: once on the client socket and no upstream socket when the client
    went away; twice on each socket after a relay (once by each thread);
    once on each after a refused tunnel or a plain request; once on the
    client socket and never on the upstream socket after an error. *)
Theorem X4_close_calls_by_outcome (upstream_proxy : UpstreamTarget)
    (e : Script) :
  let '(o, w) := handle_client upstream_proxy (start e) in
  match o with
  | ClientGone =>
    close_calls (client w) = 1 /\ upstream_created w = false
  | Tunnelled =>
    close_calls (client w) = 2 /\ close_calls (upstream w) = 2
  | TunnelRefused | PlainDone =>
    close_calls (client w) = 1 /\ close_calls (upstream w) = 1
  | Errored _ =>
    close_calls (client w) = 1 /\ close_calls (upstream w) = 0
  end.
Proof. exact (handle_client_closes upstream_proxy e). Qed.

End ReadLoopFacts.

Lemma X6_incomplete_request_not_forwarded_witness :
  let e := example_script (b_lit "GET / HTTP/1.1" ++ bCRLF) [] in
  exists w,
    handle_client example_target (start e) = (ClientGone, w)
    /\ upstream_created w = false
    /\ sent (upstream w) = [] /\ sent (client w) = []
    /\ close_calls (client w) = 1%nat /\ close_calls (upstream w) = 0%nat
    /\ reported w = [].
Proof.
  intros e.
  exact (@X6_incomplete_request_not_forwarded plain_pylib example_target e
           eq_refl).
Defined.


(** ** The rewritten request, byte for byte *)

Section TransparentFacts.
Context {L : PyLib}.
Local Open Scope nat_scope.

Lemma filter_all {A} (f : A -> bool) (l : list A) :
  forallb f l = true -> filter f l = l.
Proof.
  induction l as [|x l IH]; cbn; [reflexivity|].
  intros H. apply andb_true_iff in H as [-> H]. now rewrite IH.
Qed.

Lemma hd_tl_split (s : bytes) :
  hd [] (Seq.split bCRLF s) :: tl (Seq.split bCRLF s) = Seq.split bCRLF s.
Proof.
  pose proof (@SeqFacts.split_not_nil _ _ _ bCRLF s ltac:(discriminate)) as H.
  destruct (Seq.split bCRLF s); [contradiction|reflexivity].
Qed.

(** X11: without a configured credential, a request whose head is
    well-formed UTF-8 and has no Proxy-Authorization header goes upstream
    byte for byte as it came: decoding, splitting, filtering, joining and
    encoding again change nothing. *)
Theorem X11_request_unchanged (upstream_proxy : UpstreamTarget)
    (request : bytes) (head_text : str) :
  falsy (username upstream_proxy) = true
  \/ falsy (password upstream_proxy) = true ->
  Seq.contains bCRLFCRLF request = true ->
  Utf8.all_scalar head_text = true ->
  Utf8.encode head_text
  = Return (firstn match Seq.find bCRLFCRLF request with
                   | Some i => i
                   | None => O
                   end request) ->
  forallb (fun line => negb (names_proxy_authorization_b line))
          (tl (Seq.split bCRLF
                 (firstn match Seq.find bCRLFCRLF request with
                         | Some i => i
                         | None => O
                         end request))) = true ->
  forwarded_request upstream_proxy request = Return request.
Proof.
  intros Hcred Hterm Htext Hhead Hnone.
  unfold forwarded_request.
  rewrite (create_auth_header_falsy _ _ Hcred).
  pose proof (@WireFacts.new_request_strip_by_spec _ request head_text Htext Hhead) as H.
  destruct (split_request request) as [lines body]. cbn [fst snd bind] in *.
  rewrite H. f_equal. unfold strip_by_spec.
  rewrite (filter_all _ _ Hnone), hd_tl_split.
  rewrite SeqFacts.join_split by discriminate.
  apply SeqFacts.contains_find in Hterm as [i Hi]. rewrite Hi.
  apply SeqFacts.find_Some in Hi as (t & Hs & Ht).
  cbn [List.length bCRLFCRLF] in Ht. rewrite Ht. now symmetry.
Qed.

(** X12: the test of lines 93 and 131 holds of a line exactly when its
    first 20 characters are "proxy-authorization:" up to the case of the
    ASCII letters: lower-casing by the Unicode rules makes no other line
    match. *)
Theorem X12_header_test_is_ascii_caseless (line : str) :
  is_proxy_auth line = names_proxy_authorization line.
Proof. exact (is_proxy_auth_spec line). Qed.

(** X13: rewriting a request fails exactly when making the credential
    header fails, with the same exception: no bytes of a request make
    [new_request.encode()] raise. *)
Theorem X13_rewrite_fails_only_on_credential (upstream_proxy : UpstreamTarget)
    (request : bytes) (e : exn) :
  forwarded_request upstream_proxy request = Raise e
  <-> create_auth_header (username upstream_proxy) (password upstream_proxy)
      = Raise e.
Proof.
  destruct (create_auth_header (username upstream_proxy)
                               (password upstream_proxy))
    as [auth_header|ex] eqn:E.
  - destruct (forwarded_request_total upstream_proxy request E)
      as (head & _ & ->).
    split; discriminate.
  - unfold forwarded_request.
    destruct (split_request request) as [lines body]. rewrite E.
    cbn [bind]. split; intros [= <-]; reflexivity.
Qed.

End TransparentFacts.

Lemma X11_request_unchanged_witness :
  let open_proxy := {| host := Some (u_lit "proxy.example.com"); port := 3128;
                       username := None; password := None |} in
  let request :=
    b_lit "GET http://example.com/ HTTP/1.1" ++ bCRLF
    ++ b_lit "Host: example.com" ++ bCRLFCRLF ++ b_lit "body" in
  forwarded_request open_proxy request = Return request.
Proof.
  intros open_proxy request.
  apply (@X11_request_unchanged plain_pylib open_proxy request
           (u_lit "GET http://example.com/ HTTP/1.1" ++ CRLF
            ++ u_lit "Host: example.com"));
    [left; reflexivity | reflexivity..].
Defined.

(** ** The credential header *)

Section CredentialFacts.
Local Open Scope N_scope.

Lemma encode_raises (s : str) :
  Utf8.no_surrogate s = false -> Utf8.encode s = Raise UnicodeEncodeError.
Proof.
  induction s as [|c s IH]; cbn [Utf8.no_surrogate forallb Utf8.encode];
    [discriminate|].
  intros H. apply andb_false_iff in H as [H|H].
  - apply negb_false_iff in H.
    apply (@Utf8Facts.encode_surrogate [] s c eq_refl H).
  - fold (Utf8.no_surrogate s) in H. rewrite (IH H).
    destruct (Utf8.encode_char c); reflexivity.
Qed.

Lemma encode_Return (s : str) (bs : bytes) :
  Utf8.encode s = Return bs -> Utf8.no_surrogate s = true.
Proof.
  intros H. destruct (Utf8.no_surrogate s) eqn:E; [reflexivity|].
  rewrite (encode_raises _ E) in H. discriminate.
Qed.

Lemma no_surrogate_colon (u p : str) :
  Utf8.no_surrogate (u ++ u_lit ":" ++ p) = Utf8.no_surrogate (u ++ p).
Proof.
  unfold Utf8.no_surrogate. rewrite !forallb_app. reflexivity.
Qed.

(** X14: [create_auth_header] raises exactly when the user name and the
    password are both present and not empty and one of them holds a lone
    surrogate; what it raises is then UnicodeEncodeError.  Decoding the
    base64 text never raises. *)
Theorem X14_create_auth_header_raises (username password : option str)
    (e : exn) :
  create_auth_header username password = Raise e
  <-> e = UnicodeEncodeError
      /\ exists u p,
           username = Some u /\ password = Some p /\ u <> [] /\ p <> []
           /\ Utf8.no_surrogate (u ++ p) = false.
Proof.
  split.
  - unfold create_auth_header.
    destruct username as [[|u0 u]|]; cbn [falsy orb]; try discriminate.
    destruct password as [[|p0 p]|]; cbn [falsy orb]; try discriminate.
    cbn [format_str].
    destruct (Utf8.encode _) as [raw|ex] eqn:E; cbn [bind].
    + rewrite Utf8Facts.decode_ascii by apply Base64Facts.b64encode_ascii.
      discriminate.
    + intros [= <-].
      destruct (Utf8.no_surrogate ((u0 :: u) ++ u_lit ":" ++ p0 :: p)) eqn:Es.
      * destruct (Utf8Facts.encode_total _ Es) as [bs Hbs]. congruence.
      * rewrite (encode_raises _ Es) in E. injection E as <-.
        split; [reflexivity|]. exists (u0 :: u), (p0 :: p).
        rewrite no_surrogate_colon in Es.
        repeat split; try discriminate. exact Es.
  - intros (-> & u & p & -> & -> & Hu & Hp & Hs).
    unfold create_auth_header.
    destruct u as [|u0 u]; [contradiction|].
    destruct p as [|p0 p]; [contradiction|].
    cbn [falsy orb format_str].
    rewrite <- no_surrogate_colon in Hs. now rewrite (encode_raises _ Hs).
Qed.

(** X15: a header value that [create_auth_header] returns is "Basic "
    followed by characters of the base64 alphabet and "=", a multiple of
    four of them: whatever the credential holds, the value has no CR and no
    LF, so the injected header stays one line. *)
Theorem X15_auth_header_is_one_line (username password : option str)
    (value : str) :
  create_auth_header username password = Return (Some value) ->
  exists encoded,
    value = u_lit "Basic " ++ map Byte.to_N encoded
    /\ Forall (fun b => In b (Base64.pad :: Base64.alphabet)) encoded
    /\ (List.length encoded mod 4 = 0)%nat
    /\ ~ In CR value /\ ~ In LF value.
Proof.
  intros H. destruct (create_auth_header_value _ _ H) as [E|(raw & _ & E)];
    [discriminate|].
  injection E as ->. exists (Base64.b64encode raw).
  destruct (b64encode_chars raw) as [Hc Hl].
  split; [reflexivity|]. split; [exact Hc|]. split.
  - rewrite Hl, Nat.mul_comm. apply Nat.Div0.mod_mul.
  - assert (Hsafe : forall c, In c (u_lit "Basic "
                                     ++ map Byte.to_N (Base64.pad :: Base64.alphabet)) ->
                     c <> CR /\ c <> LF).
    { assert (Hb : forallb (fun c => negb (c =? CR) && negb (c =? LF))
                     (u_lit "Basic "
                      ++ map Byte.to_N (Base64.pad :: Base64.alphabet)) = true)
        by (vm_compute; reflexivity).
      rewrite forallb_forall in Hb. intros c Hin. specialize (Hb c Hin).
      apply andb_true_iff in Hb as [H1 H2].
      apply negb_true_iff, N.eqb_neq in H1, H2. now split. }
    assert (Hno : forall c, In c (u_lit "Basic "
                                  ++ map Byte.to_N (Base64.b64encode raw)) ->
                  c <> CR /\ c <> LF).
    { intros c Hin. apply Hsafe. apply in_or_app.
      apply in_app_or in Hin as [Hin|Hin]; [now left|right].
      apply in_map_iff in Hin as (b & <- & Hb).
      rewrite Forall_forall in Hc. apply in_map. now apply Hc. }
    split; intros Hin; apply Hno in Hin; tauto.
Qed.

End CredentialFacts.

Lemma X15_auth_header_is_one_line_witness :
  exists encoded,
    u_lit "Basic dXNlcjpwYXNz" = u_lit "Basic " ++ map Byte.to_N encoded
    /\ Forall (fun b => In b (Base64.pad :: Base64.alphabet)) encoded
    /\ (List.length encoded mod 4 = 0)%nat
    /\ ~ In CR (u_lit "Basic dXNlcjpwYXNz")
    /\ ~ In LF (u_lit "Basic dXNlcjpwYXNz").
Proof.
  exact (@X15_auth_header_is_one_line (Some (u_lit "user"))
           (Some (u_lit "pass")) (u_lit "Basic dXNlcjpwYXNz") eq_refl).
Defined.

(** ** The configuration and the start of [main] *)

Section StartupFacts.
Context {L : PyLib}.
Import UrlFacts.

(** The resolver gives [None] for the empty URL and for no other. *)
Lemma parse_proxy_url_None (url : str) :
  parse_proxy_url url = Return None <-> url = [].
Proof.
  split; [|now intros ->].
  destruct url as [|c url]; [reflexivity|].
  unfold parse_proxy_url.
  destruct (UrlParse.urlparse (c :: url)) as [parsed|]; [|discriminate].
  cbn [bind]. destruct (UrlParse.port parsed); discriminate.
Qed.

(** From line 162 on: the exit "Could not parse proxy URL" is never taken,
    and which variable is read. *)
Lemma main_startup_exits (HTTPS_PROXY HTTP_PROXY : option str) :
  main_startup HTTPS_PROXY HTTP_PROXY <> ExitCouldNotParse
  /\ (main_startup HTTPS_PROXY HTTP_PROXY = ExitNoProxy
      <-> falsy HTTPS_PROXY = true /\ falsy HTTP_PROXY = true)
  /\ (falsy HTTPS_PROXY = false ->
      main_startup HTTPS_PROXY HTTP_PROXY = main_startup HTTPS_PROXY None)
  /\ (falsy HTTPS_PROXY = true ->
      main_startup HTTPS_PROXY HTTP_PROXY = main_startup None HTTP_PROXY).
Proof.
  assert (Hparse : forall url : str, url <> [] ->
    match parse_proxy_url url with
    | Raise e => Traceback e
    | Return None => ExitCouldNotParse
    | Return (Some upstream_proxy) => Serving upstream_proxy
    end <> ExitCouldNotParse
    /\ match parse_proxy_url url with
       | Raise e => Traceback e
       | Return None => ExitCouldNotParse
       | Return (Some upstream_proxy) => Serving upstream_proxy
       end <> ExitNoProxy).
  { intros url Hurl. pose proof (parse_proxy_url_None url) as Hn.
    destruct (parse_proxy_url url) as [[t|]|ex]; try (split; discriminate).
    destruct Hurl. now apply Hn. }
  unfold main_startup.
  destruct HTTPS_PROXY as [[|c s]|]; cbn [falsy];
    destruct HTTP_PROXY as [[|c' s']|]; cbn [falsy format_str];
    repeat split; try discriminate; try reflexivity; try tauto;
    try (apply Hparse; discriminate);
    try (intros H; exfalso; revert H; apply Hparse; discriminate);
    try (intros [H1 H2]; discriminate).
  all: exfalso; match goal with H : _ = ExitNoProxy |- _ =>
         revert H; apply Hparse; discriminate end.
Qed.

(** X16: how [main] starts, lines 159-170.  A command-line argument that
    [int] does not convert ends [main] with the exception of [int], before
    the environment is read.  The exit "Could not parse proxy URL" is never
    taken: a URL that is not empty resolves to a target or raises.  [main]
    exits for want of a proxy exactly when the port is settled and both
    variables are unset or empty; HTTP_PROXY is read only when HTTPS_PROXY
    is unset or empty. *)
Theorem X16_main_exits (py_int : str -> result Z) (argv : list str)
    (HTTPS_PROXY HTTP_PROXY : option str) :
  (forall e, listen_port py_int argv = Raise e ->
             main py_int argv HTTPS_PROXY HTTP_PROXY = Traceback e)
  /\ main py_int argv HTTPS_PROXY HTTP_PROXY <> ExitCouldNotParse
  /\ (main py_int argv HTTPS_PROXY HTTP_PROXY = ExitNoProxy
      <-> (exists port, listen_port py_int argv = Return port)
          /\ falsy HTTPS_PROXY = true /\ falsy HTTP_PROXY = true)
  /\ (falsy HTTPS_PROXY = false ->
      main py_int argv HTTPS_PROXY HTTP_PROXY
      = main py_int argv HTTPS_PROXY None)
  /\ (falsy HTTPS_PROXY = true ->
      main py_int argv HTTPS_PROXY HTTP_PROXY
      = main py_int argv None HTTP_PROXY).
Proof.
  destruct (main_startup_exits HTTPS_PROXY HTTP_PROXY)
    as (Hparse & Hnone & Hhttps & Hhttp).
  unfold main. destruct (listen_port py_int argv) as [port|ex].
  - split; [discriminate|]. split; [exact Hparse|]. split.
    + rewrite Hnone. split; [intros H; split; [now exists port|exact H]|].
      now intros [_ H].
    + split; assumption.
  - split; [now intros e [= <-]|]. split; [discriminate|]. split.
    + split; [discriminate|]. now intros [[port H] _].
    + split; reflexivity.
Qed.


(** X17: the port of a proxy URL with well-formed parts before it, by what
    follows the colon after the host: digits, at most 4300 of them and of a
    value up to 65535, give that value, or 3128 when the value is 0 (as
    when nothing follows the colon); anything else (a character that is not
    a digit, more than 4300 digits, a value above 65535) raises
    ValueError. *)
Theorem X17_proxy_url_port (scheme : str)
    (credentials : option (str * option str)) (h : host_form) (p : str) :
  is_scheme scheme = true -> credentials_ok credentials = true ->
  host_form_ok h = true -> forallb is_regname_char p = true ->
  parse_proxy_url (proxy_url scheme credentials (host_text h) (Some p))
  = if forallb Unicode.is_ascii_digit p
       && (N.of_nat (List.length p) <=? UrlParse.INT_MAX_STR_DIGITS)
       && (Unicode.int_of_digits p <=? 65535)
    then Return (Some {|
           host := Some (map Unicode.ascii_lower (host_name h));
           port := if Unicode.int_of_digits p =? 0 then 3128
                   else Unicode.int_of_digits p;
           username := option_map fst credentials;
           password := match credentials with
                       | Some (_, pass) => pass
                       | None => None
                       end |})
    else Raise ValueError.
Proof.
  intros Hscheme Hcred Hhost Hp.
  exact (@parse_proxy_url_parts _ scheme credentials h (Some p) Hscheme Hcred
           Hhost Hp).
Qed.

(** X18: a proxy URL whose port is not a number, or a number above 65535,
    ends [main] with a ValueError that nothing catches, whatever HTTP_PROXY
    holds: the exit for a URL that cannot be parsed is not taken. *)
Theorem X18_main_traceback_on_bad_port (scheme : str)
    (credentials : option (str * option str)) (host : str) (p : str) :
  is_scheme scheme = true -> credentials_ok credentials = true ->
  host_ok host = true -> forallb is_regname_char p = true ->
  p <> [] ->
  forallb Unicode.is_ascii_digit p = false
  \/ 65535 < Unicode.int_of_digits p ->
  forall HTTP_PROXY,
    main_startup (Some (proxy_url scheme credentials host (Some p))) HTTP_PROXY
    = Traceback ValueError.
Proof.
  intros Hscheme Hcred Hhost Hp Hne Hbad HTTP_PROXY.
  pose proof (@parse_proxy_url_parts _ scheme credentials (RegName host)
                (Some p) Hscheme Hcred Hhost Hp) as H.
  cbn [host_text] in H.
  unfold main_startup.
  assert (Hurl : falsy (Some (proxy_url scheme credentials host (Some p)))
                 = false).
  { unfold proxy_url. destruct scheme; [discriminate|reflexivity]. }
  rewrite Hurl. cbv iota. rewrite Hurl. cbn [format_str]. rewrite H.
  assert (Hif : port_ok (Some p) = false).
  { unfold port_ok. apply andb_false_iff.
    destruct Hbad as [Hd|Hmax]; [left; now rewrite Hd|right].
    apply N.leb_gt. exact Hmax. }
  rewrite Hif. reflexivity.
Qed.

End StartupFacts.

Lemma X17_proxy_url_port_witness :
  parse_proxy_url (proxy_url (u_lit "http")
                             (Some (u_lit "user", Some (u_lit "pass")))
                             (u_lit "proxy.example.com") (Some (u_lit "0")))
  = Return (Some {| host := Some (u_lit "proxy.example.com"); port := 3128;
                    username := Some (u_lit "user");
                    password := Some (u_lit "pass") |}).
Proof.
  exact (@X17_proxy_url_port plain_pylib (u_lit "http")
           (Some (u_lit "user", Some (u_lit "pass")))
           (RegName (u_lit "proxy.example.com")) (u_lit "0")
           eq_refl eq_refl eq_refl eq_refl).
Defined.

Lemma X18_main_traceback_on_bad_port_witness :
  main_startup (Some (u_lit "http://proxy.example.com:99999")) None
  = Traceback ValueError.
Proof.
  refine (@X18_main_traceback_on_bad_port plain_pylib (u_lit "http") None
            (u_lit "proxy.example.com") (u_lit "99999")
            eq_refl eq_refl eq_refl eq_refl _ _ None);
    [discriminate | right; reflexivity].
Defined.

Section ConnectFacts.
Context {L : PyLib}.
Local Open Scope nat_scope.



End ConnectFacts.



(** ** The lines again, and the plain path *)

Section BodyFacts.
Context {L : PyLib}.

(** X22: the lines of lines 89-98 and 128-136 are a fixed point of the
    rewriting: rewriting them again with the same header value gives the
    same lines, the injected header being dropped and injected anew. *)
Theorem X22_new_headers_idempotent (lines : list str)
    (auth_header : option str) :
  new_headers (new_headers lines auth_header) auth_header
  = new_headers lines auth_header.
Proof.
  assert (Hff : forall l : list str,
            filter (fun line => negb (is_proxy_auth line))
                   (filter (fun line => negb (is_proxy_auth line)) l)
            = filter (fun line => negb (is_proxy_auth line)) l).
  { induction l as [|x l IH]; [reflexivity|]. cbn [filter].
    destruct (negb (is_proxy_auth x)) eqn:E; [|exact IH].
    cbn [filter]. now rewrite E, IH. }
  unfold new_headers.
  destruct (falsy auth_header) eqn:Ef.
  - cbn [hd tl]. now rewrite Hff.
  - destruct auth_header as [[|c a]|]; try discriminate.
    unfold list_insert. cbn [firstn skipn app hd tl format_str filter].
    rewrite is_proxy_auth_spec, names_injected_header. cbn [negb].
    now rewrite Hff.
Qed.


End BodyFacts.


